(** * FRC-Waypoints: the pure-pursuit controller of [main.js]

    A shallow embedding of the path-following core of [main.js]
    ([getSegments], [updatePP], [normalizeAngle], [ppFrame], [startPP],
    [stopPP]) together with the properties of its specification.

    Number model.  JavaScript numbers are modelled as real numbers [R]:
    [+], [-], [*], [/] and the comparisons are the exact ones, [Math.hypot],
    [Math.atan2], [Math.cos], [Math.abs] and [Math.sign] are the
    mathematical functions they approximate, and [%] is the truncated
    remainder.  Rounding, infinities and NaN are outside the model.  A
    quotient by zero is a number in the model, where JavaScript yields an
    infinity or NaN: the statement that depends on the directions of the
    segments assumes a path without coincident consecutive waypoints, on
    which the distance [L] from the robot to the pursuit point is proved
    positive before the curvature is divided by it.

    Array indices ([curSeg], [i]) are natural numbers.  A global declared
    by [var] and not yet assigned is [None]. *)

From Stdlib Require Import Reals Lra Lia List Arith Bool ZArith.
From Stdlib Require String.
Import ListNotations.
Import String.StringSyntax.

Local Open Scope R_scope.

(** ** The [Math] functions used by the program *)

Module Math.

Definition hypot (a b : R) : R := sqrt (a * a + b * b).

Definition abs (a : R) : R := Rabs a.

Definition sign (a : R) : R :=
  if Rlt_dec 0 a then 1 else if Rlt_dec a 0 then -1 else 0.

(** The angle of the vector [(b, a)], in [(-PI, PI]]; [atan2 0 0 = 0]. *)
Definition atan2 (a b : R) : R :=
  if Rlt_dec 0 b then atan (a / b)
  else if Rlt_dec b 0 then
         if Rlt_dec a 0 then atan (a / b) - PI else atan (a / b) + PI
       else if Rlt_dec 0 a then PI / 2
            else if Rlt_dec a 0 then - (PI / 2) else 0.

(** [trunc] rounds towards zero; [fmod a b] is JavaScript's [a % b],
    whose result has the sign of the dividend. *)
Definition trunc (a : R) : Z :=
  if Rlt_dec a 0 then Zceil a else Zfloor a.

Definition fmod (a b : R) : R := a - b * IZR (trunc (a / b)).

End Math.

(** ** Waypoints and segments *)

Module Waypoint.
Record t : Type := mk { x : R; y : R }.
End Waypoint.

Module Segment.
Record t : Type := mk {
  x1 : R; y1 : R; x2 : R; y2 : R;
  dx : R; dy : R; ndx : R; ndy : R;
  length : R; angle : R
}.
End Segment.

(** The body of the loop of [getSegments] (lines 34-40): the segment from
    [waypoints[i]] to [waypoints[i+1]]. *)
Definition segmentOf (w1 w2 : Waypoint.t) : Segment.t :=
  let x1 := Waypoint.x w1 in
  let y1 := Waypoint.y w1 in
  let x2 := Waypoint.x w2 in
  let y2 := Waypoint.y w2 in
  let dx := x2 - x1 in
  let dy := y2 - y1 in
  let length := Math.hypot dx dy in
  let ndx := dx / length in
  let ndy := dy / length in
  let angle := Math.atan2 dy dx in
  Segment.mk x1 y1 x2 y2 dx dy ndx ndy length angle.

(** [getSegments]: [for (i = 0; i < waypoints.length-1; i++)] pushes the
    segment of [waypoints[i]] and [waypoints[i+1]]. *)
Fixpoint getSegments (waypoints : list Waypoint.t) : list Segment.t :=
  match waypoints with
  | w1 :: ((w2 :: _) as rest) => segmentOf w1 w2 :: getSegments rest
  | _ => []
  end.

(** The invariant of a segment record, as the data model states it. *)
Definition segment_invariant (s : Segment.t) : Prop :=
  Segment.dx s = Segment.x2 s - Segment.x1 s /\
  Segment.dy s = Segment.y2 s - Segment.y1 s /\
  Segment.length s = Math.hypot (Segment.x2 s - Segment.x1 s)
                                (Segment.y2 s - Segment.y1 s) /\
  Segment.ndx s = Segment.dx s / Segment.length s /\
  Segment.ndy s = Segment.dy s / Segment.length s /\
  Segment.angle s = Math.atan2 (Segment.dy s) (Segment.dx s).

(** Segment [s] joins waypoint [p] to waypoint [q]. *)
Definition joins (s : Segment.t) (p q : Waypoint.t) : Prop :=
  Segment.x1 s = Waypoint.x p /\ Segment.y1 s = Waypoint.y p /\
  Segment.x2 s = Waypoint.x q /\ Segment.y2 s = Waypoint.y q.

(** ** Pure pursuit control *)

Definition PURSUIT_DIST : R := 70.
Definition ROBOT_SPEED : R := 180.
Definition MIN_TURN_RADIUS : R := 50.
Definition SKIP_DIST : R := 40.

(** What a tick of the controller hands to the caller when the path is not
    finished: the fields of the returned object other than [done]. *)
Record PursuitResult : Type := mkResult {
  radiusInv : R; badRadius : bool;
  px0 : R; py0 : R; px : R; py : R
}.

(** The object returned by [updatePP]: [{done: true}] or the steering
    data with [done: false]. *)
Inductive Step : Type :=
| Done
| Tracking (r : PursuitResult).

(** How a call ends: it returns a value or throws (the only exception of
    the core is the TypeError of a property read on [undefined]). *)
Inductive Completion (A : Type) : Type :=
| Normal (a : A)
| Throws.
Arguments Normal {A} a.
Arguments Throws {A}.

(** What the closest-point loop leaves behind when it breaks: the segment
    [seg = segments[curSeg]], the clamped fraction [d] and the closest
    point [(px0, py0)]. *)
Record Closest : Type := mkClosest {
  c_seg : Segment.t; c_d : R; c_px0 : R; c_py0 : R
}.

(** Lines 78-81: the projection of the robot on the segment, as a
    fraction of the segment's length.  On a segment of length [0] the
    code's [d] is NaN, which fails [d < 1.0], where the model has a
    number: the statements that depend on this value are about paths whose
    segments have a non-zero length. *)
Definition projection (seg : Segment.t) (robotX robotY : R) : R :=
  let x := robotX - Segment.x1 seg in
  let y := robotY - Segment.y1 seg in
  let d := x * Segment.ndx seg + y * Segment.ndy seg in
  d / Segment.length seg.

(** Lines 75-88, over the segments from [curSeg] on: returns the final
    value of [curSeg], and the data of the [break] if there was one. *)
Fixpoint closestLoop (rest : list Segment.t) (robotX robotY : R)
         (curSeg : nat) : nat * option Closest :=
  match rest with
  | [] => (curSeg, None)
  | seg :: rest' =>
      let d := projection seg robotX robotY in
      if Rlt_dec d 1 then
        let d := if Rlt_dec d 0 then 0 else d in
        (curSeg, Some (mkClosest seg d (Segment.x1 seg + d * Segment.dx seg)
                                       (Segment.y1 seg + d * Segment.dy seg)))
      else closestLoop rest' robotX robotY (S curSeg)
  end.

(** Lines 98-105, over the segments from [i] on: returns [i], [d] and
    [seg] as the loop leaves them, by [break] or by [i] reaching
    [segments.length]. *)
Fixpoint pursuitLoop (rest : list Segment.t) (i : nat) (d : R)
         (seg : Segment.t) : nat * R * Segment.t :=
  match rest with
  | [] => (i, d, seg)
  | s :: rest' =>
      if Rgt_dec (d + Segment.length s) PURSUIT_DIST
      then (i, PURSUIT_DIST - d, s)
      else pursuitLoop rest' (S i) (d + Segment.length s) s
  end.

(** Lines 96-109: the segment index, the offset on that segment and the
    segment of the pursuit point. *)
Definition pursuitSearch (segments : list Segment.t) (curSeg : nat)
           (c : Closest) : nat * R * Segment.t :=
  let d := - c_d c * Segment.length (c_seg c) in
  let '(i, d, seg) := pursuitLoop (skipn curSeg segments) curSeg d (c_seg c) in
  if Nat.eqb i (List.length segments)
  then (Nat.pred i, Segment.length seg, seg)
  else (i, d, seg).

Definition normalizeAngle (a : R) : R :=
  let a := Math.fmod a (2 * PI) in
  if Rlt_dec a 0 then a + 2 * PI else a.

Definition gtb (a b : R) : bool := if Rgt_dec a b then true else false.
Definition ltb (a b : R) : bool := if Rlt_dec a b then true else false.

(** Line 123: the angle [a] whose cosine gives the turn. *)
Definition turnAngle (pdx pdy robotDir : R) : R :=
  PI / 2 - (Math.atan2 pdy pdx - robotDir).

(** Lines 122-124: [radiusInv] before the test of line 126; [d] is the
    distance from the robot to the pursuit point.  With [d = 0] the code's
    quotient is an infinity or NaN, and where the real cosine is exactly
    [0] the code's is a small number of either sign: the statements on
    this value are about a pursuit point away from the robot, and none
    rests on the sign of an exact zero. *)
Definition rawRadiusInv (d pdx pdy robotDir : R) : R :=
  let d := d / 2 in
  let a := turnAngle pdx pdy robotDir in
  cos a / d.

(** The condition of line 126. *)
Definition clampTest (a radiusInv : R) : bool :=
  gtb (normalizeAngle a) PI ||
  gtb (Math.abs radiusInv) (1 / MIN_TURN_RADIUS).

(** Lines 125-129: the returned [radiusInv] and [badRadius]. *)
Definition clampRadius (a radiusInv : R) : R * bool :=
  if clampTest a radiusInv
  then (Math.sign radiusInv * 1 / MIN_TURN_RADIUS, true)
  else (radiusInv, false).

(** One activation of [updatePP], up to its [return]: it returns with
    [curSeg] as it then is, or it sets [curSeg = i] and calls itself. *)
Inductive Activation : Type :=
| Return (curSeg : nat) (r : Completion Step)
| Retry (curSeg : nat).

Definition activation (segments : list Segment.t)
           (robotX robotY robotDir : R) (curSeg : nat) : Activation :=
  match closestLoop (skipn curSeg segments) robotX robotY curSeg with
  | (curSeg, None) =>
      if Nat.eqb curSeg (List.length segments)
      then Return curSeg (Normal Done)
      else Return curSeg Throws   (* segments[curSeg] is undefined *)
  | (curSeg, Some c) =>
      let '(i, d, seg) := pursuitSearch segments curSeg c in
      let px := Segment.x1 seg + d * Segment.ndx seg in
      let py := Segment.y1 seg + d * Segment.ndy seg in
      let pdx := px - robotX in
      let pdy := py - robotY in
      let d := Math.hypot pdx pdy in
      if ltb d SKIP_DIST && negb (Nat.eqb curSeg i)
      then Retry i
      else
        let a := turnAngle pdx pdy robotDir in
        let '(radiusInv, badRadius) :=
          clampRadius a (rawRadiusInv d pdx pdy robotDir) in
        Return curSeg
          (Normal (Tracking (mkResult radiusInv badRadius
                                      (c_px0 c) (c_py0 c) px py)))
  end.

(** [updatePP] on the controller's variables, with a bound [depth] on the
    number of activations: [None] when the bound is used up. *)
Fixpoint updatePP_rec (depth : nat) (segments : list Segment.t)
         (robotX robotY robotDir : R) (curSeg : nat)
  : option (nat * Completion Step) :=
  match depth with
  | O => None
  | S depth' =>
      match activation segments robotX robotY robotDir curSeg with
      | Return curSeg' r => Some (curSeg', r)
      | Retry i => updatePP_rec depth' segments robotX robotY robotDir i
      end
  end.

(** ** The global variables and the functions that assign them *)

Record Globals : Type := mkGlobals {
  waypoints : list Waypoint.t;
  segments : option (list Segment.t);
  curSeg : option nat;
  robotX : option R;
  robotY : option R;
  robotDir : option R;
  ppRunning : bool;
  lastFrame : option R
}.

Definition set_segments (v : list Segment.t) (g : Globals) : Globals :=
  mkGlobals (waypoints g) (Some v) (curSeg g) (robotX g) (robotY g)
            (robotDir g) (ppRunning g) (lastFrame g).
Definition set_curSeg (v : nat) (g : Globals) : Globals :=
  mkGlobals (waypoints g) (segments g) (Some v) (robotX g) (robotY g)
            (robotDir g) (ppRunning g) (lastFrame g).
Definition set_robotX (v : R) (g : Globals) : Globals :=
  mkGlobals (waypoints g) (segments g) (curSeg g) (Some v) (robotY g)
            (robotDir g) (ppRunning g) (lastFrame g).
Definition set_robotY (v : R) (g : Globals) : Globals :=
  mkGlobals (waypoints g) (segments g) (curSeg g) (robotX g) (Some v)
            (robotDir g) (ppRunning g) (lastFrame g).
Definition set_robotDir (v : R) (g : Globals) : Globals :=
  mkGlobals (waypoints g) (segments g) (curSeg g) (robotX g) (robotY g)
            (Some v) (ppRunning g) (lastFrame g).
Definition set_ppRunning (v : bool) (g : Globals) : Globals :=
  mkGlobals (waypoints g) (segments g) (curSeg g) (robotX g) (robotY g)
            (robotDir g) v (lastFrame g).
Definition set_lastFrame (v : R) (g : Globals) : Globals :=
  mkGlobals (waypoints g) (segments g) (curSeg g) (robotX g) (robotY g)
            (robotDir g) (ppRunning g) (Some v).

(** The state of the page before any run: nothing assigned. *)
Definition initial (wps : list Waypoint.t) : Globals :=
  mkGlobals wps None None None None None false None.

Definition stopPP (g : Globals) : Globals := set_ppRunning false g.

(** [updatePP] on the globals.  [startPP] assigns every variable it reads
    before the first call; on a state where one of them is unassigned the
    model stops with [Throws].  The bound on the activations is one more
    than the number of segments, which is never used up. *)
Definition updatePP (g : Globals) : Globals * Completion Step :=
  match segments g, curSeg g, robotX g, robotY g, robotDir g with
  | Some segs, Some cs, Some rX, Some rY, Some rDir =>
      match updatePP_rec (S (List.length segs)) segs rX rY rDir cs with
      | Some (cs', Normal Done) => (stopPP (set_curSeg cs' g), Normal Done)
      | Some (cs', r) => (set_curSeg cs' g, r)
      | None => (g, Throws)
      end
  | _, _, _, _, _ => (g, Throws)
  end.

(** Lines 152-159 of [ppFrame]: the robot turns, then moves along the new
    direction. *)
Definition moveRobot (dt radiusInv : R) (g : Globals) : Globals :=
  match robotX g, robotY g, robotDir g with
  | Some rX, Some rY, Some rDir =>
      let driveDist := ROBOT_SPEED * dt in
      let turnAmount := driveDist * radiusInv in
      let rDir := rDir + turnAmount in
      let rX := rX + driveDist * cos rDir in
      let rY := rY + driveDist * sin rDir in
      set_robotY rY (set_robotX rX (set_robotDir rDir g))
  | _, _, _ => g
  end.

(** [ppFrame], with the reading [curFrame] of the clock as an argument;
    drawing is left out.  [startPP] assigns [lastFrame] before the first
    frame; as in [updatePP], the model stops with [Throws] on a state
    where it is unassigned. *)
Definition ppFrame (curFrame : R) (g : Globals) : Globals * Completion unit :=
  match lastFrame g with
  | None => (g, Throws)
  | Some last =>
      let dt := (curFrame - last) / 1000 in
      let g := set_lastFrame curFrame g in
      match updatePP g with
      | (g, Throws) => (g, Throws)
      | (g, Normal Done) => (g, Normal tt)
      | (g, Normal (Tracking r)) => (moveRobot dt (radiusInv r) g, Normal tt)
      end
  end.

(** [startPP], with the two readings of the clock ([t0] for [lastFrame],
    [t1] inside the first [ppFrame]) as arguments.  Reading [.x] of
    [waypoints[0]] or [.angle] of [segments[0]] throws when the array has
    no such element; the assignments made before that stay. *)
Definition startPP (t0 t1 : R) (g : Globals) : Globals * Completion unit :=
  let segs := getSegments (waypoints g) in
  let g := set_segments segs g in
  match nth_error (waypoints g) 0 with
  | None => (g, Throws)
  | Some w0 =>
      let g := set_robotX (Waypoint.x w0) g in
      let g := set_robotY (Waypoint.y w0) g in
      match nth_error segs 0 with
      | None => (g, Throws)
      | Some s0 =>
          let g := set_robotDir (Segment.angle s0) g in
          let g := set_curSeg 0 g in
          let g := set_lastFrame t0 g in
          let g := set_ppRunning true g in
          ppFrame t1 g
      end
  end.

(** The frames of a run: [ppFrame] asks for the next frame only when it
    did not see [done] and [ppRunning] holds. *)
Fixpoint frames (clock : list R) (g : Globals) : Globals :=
  match clock with
  | [] => g
  | t :: clock' =>
      if ppRunning g then
        match ppFrame t g with
        | (g', Normal _) => frames clock' g'
        | (g', Throws) => g'
        end
      else g
  end.

(** ** Arc length along the path *)

(** The sum of the lengths of a run of segments. *)
Definition arcLength (l : list Segment.t) : R :=
  fold_right (fun s acc => Segment.length s + acc) 0 l.

(** No two consecutive waypoints coincide. *)
Fixpoint distinctNeighbours (wps : list Waypoint.t) : Prop :=
  match wps with
  | w1 :: ((w2 :: _) as rest) => w1 <> w2 /\ distinctNeighbours rest
  | _ => True
  end.

(** The horizontal path from [(0,0)] to [(200,0)], used in the examples. *)
Definition straightPath : list Waypoint.t :=
  [Waypoint.mk 0 0; Waypoint.mk 200 0].

Definition straightSegment : Segment.t :=
  Segment.mk 0 0 200 0 200 0 1 0 200 0.

(** The path that runs from [(0,0)] to [(100,0)] and back, a corner of
    half a turn, and its segments. *)
Definition foldedPath : list Waypoint.t :=
  [Waypoint.mk 0 0; Waypoint.mk 100 0; Waypoint.mk 0 0].

Definition foldedSegments : list Segment.t :=
  [Segment.mk 0 0 100 0 100 0 1 0 100 0;
   Segment.mk 100 0 0 0 (-100) 0 (-1) 0 100 PI].

(** The globals of a run on the straight path once the robot has passed
    its end, at [(250, 0)]. *)
Definition pastTheEnd : Globals :=
  mkGlobals straightPath (Some [straightSegment]) (Some 0%nat)
            (Some 250) (Some 0) (Some 0) true (Some 0).

(** The globals of a run on the straight path with the robot behind its
    start, at [(-100, 0)], heading along the path. *)
Definition behindTheStart : Globals :=
  mkGlobals straightPath (Some [straightSegment]) (Some 0%nat)
            (Some (-100)) (Some 0) (Some 0) true (Some 0).

(** The globals of a run on the straight path with the robot on its
    start, heading along it. *)
Definition atTheStart : Globals :=
  mkGlobals straightPath (Some (getSegments straightPath)) (Some 0%nat)
            (Some 0) (Some 0) (Some 0) true (Some 0).

(** ** The rest of the page's logic *)

Definition set_waypoints (v : list Waypoint.t) (g : Globals) : Globals :=
  mkGlobals v (segments g) (curSeg g) (robotX g) (robotY g)
            (robotDir g) (ppRunning g) (lastFrame g).

(** [addWaypoint]: [waypoints.push({x, y})]; drawing is left out. *)
Definition addWaypoint (x y : R) (g : Globals) : Globals :=
  set_waypoints (waypoints g ++ [Waypoint.mk x y]) g.

(** [jointAngle]: the turn from [seg1] to [seg2], the difference of their
    angles brought back by one turn when it is beyond half a turn. *)
Definition jointAngle (seg1 seg2 : Segment.t) : R :=
  let a := Segment.angle seg2 - Segment.angle seg1 in
  let a := if Rgt_dec a PI then a - 2 * PI else a in
  let a := if Rlt_dec a (- PI) then a + 2 * PI else a in
  a.

Section Console.

Local Open Scope string_scope.

(** [toFixed0 v] stands for JavaScript's [v.toFixed(0)], the decimal
    text of [v] rounded to an integer. *)
Variable toFixed0 : R -> String.string.

(** The two lines [printCommands] writes with [console.log]. *)
Definition turnLine (seg1 seg2 : Segment.t) : String.string :=
  let angle := jointAngle seg1 seg2 * 180 / PI in
  String.append "TurnAngle "
                (String.append (toFixed0 angle) "°").

Definition driveLine (seg : Segment.t) : String.string :=
  String.append "DriveDist "
                (String.append (toFixed0 (Segment.length seg)) " in.").

(** The body of the loop of [printCommands] for the segments after the
    first, [prev] being [segments[i-1]]. *)
Fixpoint commandsFrom (prev : Segment.t) (rest : list Segment.t)
  : list String.string :=
  match rest with
  | [] => []
  | seg :: rest' => turnLine prev seg :: driveLine seg :: commandsFrom seg rest'
  end.

(** [printCommands], as the list of the lines it logs, first to last. *)
Definition printCommands (waypoints : list Waypoint.t) : list String.string :=
  match getSegments waypoints with
  | [] => []
  | seg :: rest => driveLine seg :: commandsFrom seg rest
  end.

End Console.

(** *** Screen and field coordinates *)

Definition fieldWidth : R := 652.
Definition fieldHeight : R := 324.

(** [scale = width/fieldWidth], with [width] the width of the canvas on
    the page. *)
Definition scale (width : R) : R := width / fieldWidth.

Definition screenToField (width : R) (x y : R) : R * R :=
  (x / scale width, y / scale width).

Definition fieldToScreen (width : R) (x y : R) : R * R :=
  (x * scale width, y * scale width).

(** [touchMove]: the pointer position becomes a waypoint, in field
    coordinates. *)
Definition touchMove (width : R) (x y : R) (g : Globals) : Globals :=
  let '(x, y) := screenToField width x y in
  addWaypoint x y g.

(** *** The state of the globals during a run *)

(** Everything [updatePP] and [ppFrame] read is assigned, and [curSeg] is
    an index of [segments] or its length. *)
Definition runState (g : Globals) : Prop :=
  exists segs cs rX rY rD last,
    segments g = Some segs /\ curSeg g = Some cs /\
    (cs <= List.length segs)%nat /\
    robotX g = Some rX /\ robotY g = Some rY /\ robotDir g = Some rD /\
    lastFrame g = Some last.

(** The robot is on segment [s], [u] along it from its start, heading
    along it. *)
Definition onSegment (s : Segment.t) (u rX rY rD : R) : Prop :=
  rX = Segment.x1 s + u * Segment.ndx s /\
  rY = Segment.y1 s + u * Segment.ndy s /\
  rD = Segment.angle s.


(** ** Proof automation for concrete runs *)

(** Settles the comparisons of real numbers that a run on concrete data
    meets, when linear arithmetic decides them. *)
Ltac decide_Rlt :=
  repeat match goal with
  | |- context [Rlt_dec ?a ?b] =>
      let H := fresh in
      destruct (Rlt_dec a b) as [H|H];
      [try (exfalso; lra)|try (exfalso; lra)]
  | |- context [Rgt_dec ?a ?b] =>
      let H := fresh in
      destruct (Rgt_dec a b) as [H|H];
      [try (exfalso; lra)|try (exfalso; lra)]
  end.

Ltac seg_fields :=
  cbn [Segment.x1 Segment.y1 Segment.x2 Segment.y2 Segment.dx Segment.dy
       Segment.ndx Segment.ndy Segment.length Segment.angle
       c_d c_seg c_px0 c_py0].

(** * Properties *)

(** ** The [Math] functions *)

Lemma hypot_nonneg a b : 0 <= Math.hypot a b.
Proof. apply sqrt_pos. Qed.

Lemma hypot_horizontal a : 0 <= a -> Math.hypot a 0 = a.
Proof.
  intros Ha. unfold Math.hypot.
  replace (a * a + 0 * 0) with (a * a) by ring.
  now apply sqrt_square.
Qed.

Lemma hypot_horizontal_neg a : a <= 0 -> Math.hypot a 0 = - a.
Proof.
  intros Ha. unfold Math.hypot.
  replace (a * a + 0 * 0) with (- a * - a) by ring.
  apply sqrt_square. lra.
Qed.

Lemma hypot_zero_iff a b : Math.hypot a b = 0 <-> a = 0 /\ b = 0.
Proof.
  unfold Math.hypot. split.
  - intros H. apply sqrt_eq_0 in H; [|nra].
    split; nra.
  - intros [-> ->]. replace (0 * 0 + 0 * 0) with 0 by ring. apply sqrt_0.
Qed.

Lemma atan2_positive_axis b : 0 < b -> Math.atan2 0 b = 0.
Proof.
  intros Hb. unfold Math.atan2.
  destruct (Rlt_dec 0 b) as [_|n]; [|contradiction].
  unfold Rdiv. rewrite Rmult_0_l. apply atan_0.
Qed.

Lemma sign_zero : Math.sign 0 = 0.
Proof.
  unfold Math.sign.
  destruct (Rlt_dec 0 0) as [H|_]; [lra|]. reflexivity.
Qed.

Lemma sign_abs a : a <> 0 -> Rabs (Math.sign a) = 1.
Proof.
  intros Ha. unfold Math.sign.
  destruct (Rlt_dec 0 a); [apply Rabs_R1|].
  destruct (Rlt_dec a 0); [|lra].
  unfold Rabs. destruct (Rcase_abs (-1)); lra.
Qed.

Lemma trunc_small a : -1 < a < 1 -> Math.trunc a = 0%Z.
Proof.
  intros [Hl Hu]. unfold Math.trunc.
  destruct (Rlt_dec a 0).
  - apply Zceil_eq. simpl. lra.
  - apply Zfloor_eq. simpl. lra.
Qed.

(** Within one turn, [normalizeAngle] leaves a non-negative angle alone
    and adds a full turn to a negative one. *)
Lemma normalizeAngle_small a :
  0 <= a < 2 * PI -> normalizeAngle a = a.
Proof.
  intros [Hl Hu]. pose proof PI_RGT_0 as Hpi.
  unfold normalizeAngle, Math.fmod.
  rewrite trunc_small.
  - simpl. rewrite Rmult_0_r, Rminus_0_r.
    destruct (Rlt_dec a 0); [lra|reflexivity].
  - split.
    + apply Rlt_le_trans with 0; [lra|].
      apply Rmult_le_pos; [lra|]. left. apply Rinv_0_lt_compat. lra.
    + apply Rmult_lt_reg_r with (2 * PI); [lra|].
      unfold Rdiv. rewrite Rmult_assoc, Rinv_l by lra. lra.
Qed.

Lemma normalizeAngle_negative a :
  - (2 * PI) < a < 0 -> normalizeAngle a = a + 2 * PI.
Proof.
  intros [Hl Hu]. pose proof PI_RGT_0 as Hpi.
  unfold normalizeAngle, Math.fmod.
  rewrite trunc_small.
  - simpl. rewrite Rmult_0_r, Rminus_0_r.
    destruct (Rlt_dec a 0); [reflexivity|lra].
  - split.
    + apply Rmult_lt_reg_r with (2 * PI); [lra|].
      unfold Rdiv. rewrite Rmult_assoc, Rinv_l by lra. lra.
    + apply Rlt_trans with 0; [|lra].
      apply Rmult_lt_reg_r with (2 * PI); [lra|].
      unfold Rdiv. rewrite Rmult_assoc, Rinv_l by lra. lra.
Qed.

(** ** [getSegments] *)

Lemma segmentOf_joins p q : joins (segmentOf p q) p q.
Proof. unfold joins, segmentOf; simpl; auto. Qed.

Lemma segmentOf_invariant p q : segment_invariant (segmentOf p q).
Proof. unfold segment_invariant, segmentOf; simpl; repeat split. Qed.

Lemma getSegments_length wps :
  List.length (getSegments wps) = (List.length wps - 1)%nat.
Proof.
  induction wps as [|p [|q rest] IH]; simpl in *; try reflexivity.
  rewrite IH. lia.
Qed.

(** The segment of index [i] is the one of waypoints [i] and [i+1]. *)
Lemma getSegments_nth wps : forall i p q,
  nth_error wps i = Some p -> nth_error wps (S i) = Some q ->
  nth_error (getSegments wps) i = Some (segmentOf p q).
Proof.
  induction wps as [|w [|w' rest] IH]; intros i p q Hp Hq.
  - destruct i; discriminate.
  - destruct i; simpl in Hq; [discriminate|destruct i; discriminate].
  - destruct i as [|i].
    + simpl in Hp, Hq. injection Hp as <-. injection Hq as <-. reflexivity.
    + change (nth_error (getSegments (w' :: rest)) i = Some (segmentOf p q)).
      apply IH; assumption.
Qed.

Lemma getSegments_nth_inv wps : forall i s,
  nth_error (getSegments wps) i = Some s ->
  exists p q, nth_error wps i = Some p /\ nth_error wps (S i) = Some q /\
              s = segmentOf p q.
Proof.
  induction wps as [|w [|w' rest] IH]; intros i s Hs.
  - destruct i; discriminate.
  - destruct i; discriminate.
  - destruct i as [|i].
    + simpl in Hs. injection Hs as <-. exists w, w'. auto.
    + change (nth_error (getSegments (w' :: rest)) i = Some s) in Hs.
      destruct (IH i s Hs) as (p & q & Hp & Hq & E).
      exists p, q. auto.
Qed.

(** C4.  [getSegments] returns one segment per consecutive pair of
    waypoints, in order: [N] waypoints give [N-1] segments, none for an
    empty or single-waypoint input; segment [i] joins waypoints [i] and
    [i+1], and every returned segment has [length = hypot(x2-x1, y2-y1)],
    [ndx = dx/length], [ndy = dy/length] and [angle = atan2(dy, dx)]. *)
Theorem getSegments_consecutive_pairs (wps : list Waypoint.t) :
  List.length (getSegments wps) = (List.length wps - 1)%nat /\
  ((List.length wps <= 1)%nat -> getSegments wps = []) /\
  (forall i p q,
      nth_error wps i = Some p -> nth_error wps (S i) = Some q ->
      nth_error (getSegments wps) i = Some (segmentOf p q)) /\
  (forall i s,
      nth_error (getSegments wps) i = Some s ->
      (exists p q, nth_error wps i = Some p /\
                   nth_error wps (S i) = Some q /\ joins s p q) /\
      segment_invariant s).
Proof.
  split; [apply getSegments_length|].
  split.
  { intros Hn. destruct wps as [|p [|q rest]]; simpl in *; try reflexivity. lia. }
  split; [apply getSegments_nth|].
  intros i s Hs.
  destruct (getSegments_nth_inv wps i s Hs) as (p & q & Hp & Hq & ->).
  split; [|apply segmentOf_invariant].
  exists p, q. auto using segmentOf_joins.
Qed.

Lemma getSegments_consecutive_pairs_witness :
  nth_error (getSegments straightPath) 0 =
    Some (segmentOf (Waypoint.mk 0 0) (Waypoint.mk 200 0)) /\
  getSegments [Waypoint.mk 0 0] = [].
Proof.
  destruct (getSegments_consecutive_pairs straightPath) as (_ & _ & Hnth & _).
  destruct (getSegments_consecutive_pairs [Waypoint.mk 0 0]) as (_ & Hone & _).
  split.
  - apply Hnth; reflexivity.
  - apply Hone. simpl. lia.
Defined.

(** C5, as the specification states it, fails: two coincident consecutive
    waypoints are neither rejected nor skipped.  [getSegments] returns a
    segment for them, of length [0], whose direction is the quotient by
    that length. *)
Lemma getSegments_coincident_not_skipped :
  exists s,
    getSegments [Waypoint.mk 3 4; Waypoint.mk 3 4; Waypoint.mk 5 4] =
      [s; segmentOf (Waypoint.mk 3 4) (Waypoint.mk 5 4)] /\
    Segment.length s = 0 /\
    Segment.ndx s = 0 / 0 /\ Segment.ndy s = 0 / 0.
Proof.
  eexists. split; [reflexivity|].
  assert (H : Math.hypot (3 - 3) (4 - 4) = 0).
  { apply hypot_zero_iff. split; ring. }
  simpl. rewrite H. repeat split; f_equal; ring.
Qed.

(** C5, amended.  For every pair of coincident consecutive waypoints
    [getSegments] still returns a segment at that index; its length is
    [0] and its direction components are [dx/length] and [dy/length],
    the quotients of [0] by that zero length. *)
Theorem getSegments_coincident_segment (wps : list Waypoint.t) (i : nat)
        (p : Waypoint.t) :
  nth_error wps i = Some p -> nth_error wps (S i) = Some p ->
  exists s, nth_error (getSegments wps) i = Some s /\
            joins s p p /\
            Segment.length s = 0 /\
            Segment.dx s = 0 /\ Segment.dy s = 0 /\
            Segment.ndx s = Segment.dx s / 0 /\
            Segment.ndy s = Segment.dy s / 0.
Proof.
  intros Hp Hq. exists (segmentOf p p).
  split; [now apply getSegments_nth|].
  split; [apply segmentOf_joins|].
  assert (Hx : Waypoint.x p - Waypoint.x p = 0) by ring.
  assert (Hy : Waypoint.y p - Waypoint.y p = 0) by ring.
  assert (H : Math.hypot (Waypoint.x p - Waypoint.x p)
                         (Waypoint.y p - Waypoint.y p) = 0).
  { apply hypot_zero_iff. auto. }
  unfold segmentOf; simpl. rewrite H. auto.
Qed.

Lemma getSegments_coincident_segment_witness :
  exists s,
    nth_error (getSegments [Waypoint.mk 3 4; Waypoint.mk 3 4]) 0 = Some s /\
    Segment.length s = 0.
Proof.
  destruct (getSegments_coincident_segment
              [Waypoint.mk 3 4; Waypoint.mk 3 4] 0 (Waypoint.mk 3 4)
              eq_refl eq_refl) as (s & Hs & _ & Hl & _).
  exists s. split; assumption.
Defined.

(** ** [startPP] with fewer than two waypoints *)

(** C6, as the specification states it, fails: started on a single
    waypoint, [startPP] throws only after it has assigned [robotX] and
    [robotY]. *)
Lemma startPP_single_waypoint_sets_pose :
  exists g',
    startPP 0 0 (initial [Waypoint.mk 5 7]) = (g', Throws) /\
    robotX (initial [Waypoint.mk 5 7]) = None /\
    robotX g' = Some 5 /\ robotY g' = Some 7.
Proof. eexists. repeat split. Qed.

(** C6, amended.  Started with fewer than two waypoints, [startPP] throws
    on the read of a missing array element ([waypoints[0]] when there is no
    waypoint, [segments[0]] when there is one), before it assigns
    [robotDir], [curSeg], [lastFrame] and [ppRunning]: these keep their
    values and no frame runs.  [segments] has become the empty list.  With
    no waypoint the position of the robot is untouched; with one waypoint
    [robotX] and [robotY] have been set to it. *)
Theorem startPP_short_path_throws (t0 t1 : R) (g : Globals) :
  (List.length (waypoints g) < 2)%nat ->
  exists g',
    startPP t0 t1 g = (g', Throws) /\
    waypoints g' = waypoints g /\
    segments g' = Some [] /\
    robotDir g' = robotDir g /\
    curSeg g' = curSeg g /\
    lastFrame g' = lastFrame g /\
    ppRunning g' = ppRunning g /\
    (waypoints g = [] -> robotX g' = robotX g /\ robotY g' = robotY g) /\
    (forall w, waypoints g = [w] ->
               robotX g' = Some (Waypoint.x w) /\
               robotY g' = Some (Waypoint.y w)).
Proof.
  intros Hlen. unfold startPP.
  destruct g as [wps sg cs rx ry rd run lf]; simpl in *.
  destruct wps as [|w [|w' rest]]; simpl in *; [| |lia].
  - eexists. split; [reflexivity|]. simpl.
    repeat split; intros; discriminate.
  - eexists. split; [reflexivity|]. simpl.
    repeat split; try discriminate;
      match goal with H : [_] = [_] |- _ => now injection H as <- end.
Qed.

Lemma startPP_short_path_throws_witness :
  exists g',
    startPP 0 0 (initial []) = (g', Throws) /\
    curSeg g' = None /\ ppRunning g' = false.
Proof.
  destruct (startPP_short_path_throws 0 0 (initial [])) as
      (g' & H & _ & _ & _ & Hc & _ & Hr & _).
  - simpl. lia.
  - exists g'. repeat split; assumption.
Defined.

(** ** The two loops of [updatePP] *)

Section Loops.

Variables robotX robotY : R.

(** The closest-point loop only moves [curSeg] forward; when it breaks,
    [curSeg] designates the segment it stopped on, whose projection is
    below [1]; when it does not, every segment it saw has a projection
    that is not below [1]. *)
Lemma closestLoop_inv : forall rest curSeg curSeg' o,
  closestLoop rest robotX robotY curSeg = (curSeg', o) ->
  (curSeg <= curSeg')%nat /\
  (forall k s, (k < curSeg' - curSeg)%nat -> nth_error rest k = Some s ->
               ~ projection s robotX robotY < 1) /\
  match o with
  | None => curSeg' = (curSeg + List.length rest)%nat
  | Some c =>
      nth_error rest (curSeg' - curSeg) = Some (c_seg c) /\
      projection (c_seg c) robotX robotY < 1 /\
      c_d c = Rmax 0 (projection (c_seg c) robotX robotY) /\
      c_px0 c = Segment.x1 (c_seg c) + c_d c * Segment.dx (c_seg c) /\
      c_py0 c = Segment.y1 (c_seg c) + c_d c * Segment.dy (c_seg c)
  end.
Proof.
  induction rest as [|seg rest IH]; intros cs cs' o H; simpl in H.
  - injection H as <- <-. split; [lia|]. split; [|simpl; lia].
    intros k s Hk. lia.
  - destruct (Rlt_dec (projection seg robotX robotY) 1) as [Hlt|Hge].
    + injection H as <- <-. split; [lia|]. split.
      * intros k s Hk. lia.
      * rewrite Nat.sub_diag. simpl. repeat split; try assumption.
        destruct (Rlt_dec (projection seg robotX robotY) 0) as [Hn|Hn].
        -- rewrite Rmax_left; lra.
        -- rewrite Rmax_right; lra.
    + apply IH in H. destruct H as (Hle & Hall & Ho).
      split; [lia|]. split.
      * intros k s Hk Hs. destruct k as [|k]; simpl in Hs.
        -- now injection Hs as <-.
        -- apply (Hall k s); [lia|assumption].
      * destruct o as [c|].
        -- replace (cs' - cs)%nat with (S (cs' - S cs)) by lia. exact Ho.
        -- simpl. lia.
Qed.

End Loops.

Lemma last_cons_default {A : Type} (l : list A) : forall a d,
  last (a :: l) d = last l a.
Proof.
  induction l as [|b l IH]; intros a d; [reflexivity|].
  change (last (b :: l) d = last (b :: l) a).
  now rewrite !IH.
Qed.

(** The pursuit loop, started at index [i] with [d] the arc length from
    the closest point to the start of segment [i]: either it breaks on a
    segment [k] places further, where the arc length [PURSUIT_DIST] is
    reached, or it runs off the end with the whole arc length in [d]. *)
Lemma pursuitLoop_inv : forall rest i d seg i' d' seg',
  pursuitLoop rest i d seg = (i', d', seg') ->
  (exists k,
      i' = (i + k)%nat /\ nth_error rest k = Some seg' /\
      d' = PURSUIT_DIST - (d + arcLength (firstn k rest)) /\
      d + arcLength (firstn k rest) + Segment.length seg' > PURSUIT_DIST /\
      ((0 < k)%nat -> d + arcLength (firstn k rest) <= PURSUIT_DIST)) \/
  (i' = (i + List.length rest)%nat /\
   d' = d + arcLength rest /\
   seg' = last rest seg /\
   (rest <> [] -> d' <= PURSUIT_DIST)).
Proof.
  induction rest as [|s rest IH]; intros i d seg i' d' seg' H; simpl in H.
  - injection H as <- <- <-. right. simpl.
    repeat split; [lia|lra|congruence].
  - destruct (Rgt_dec (d + Segment.length s) PURSUIT_DIST) as [Hgt|Hle].
    + injection H as <- <- <-. left. exists 0%nat. simpl.
      repeat split; [lia|lra|lra|lia].
    + apply IH in H.
      destruct H as [(k & -> & Hk & -> & Hgt & Hprev)|(-> & -> & -> & Hend)].
      * left. exists (S k). simpl.
        repeat split; [lia|assumption|lra|lra|].
        intros _. destruct k as [|k].
        -- simpl. lra.
        -- assert (0 < S k)%nat as Hpos by lia. apply Hprev in Hpos. lra.
      * right. simpl. repeat split; [lia|lra| |].
        -- exact (eq_sym (last_cons_default rest s seg)).
        -- intros _. destruct rest as [|s' rest].
           ++ simpl. lra.
           ++ assert (s' :: rest <> []) as Hne by discriminate.
              apply Hend in Hne. lra.
Qed.

Lemma nth_error_last {A : Type} (l : list A) (d : A) :
  l <> [] -> nth_error l (List.length l - 1) = Some (last l d).
Proof.
  revert d. induction l as [|a l IH]; intros d Hne; [congruence|].
  destruct l as [|b l]; [reflexivity|].
  rewrite last_cons_default.
  replace (List.length (a :: b :: l) - 1)%nat
    with (S (List.length (b :: l) - 1)) by (simpl; lia).
  apply (IH a). discriminate.
Qed.

(** The pursuit point lies on a segment [i] at or after [curSeg].  Either
    the search broke on it, and the offset [d] on that segment completes
    the arc length from the closest point to [PURSUIT_DIST]; or it ran off
    the end, [i] is the last segment, [d] its length, and the arc length
    left from the closest point is at most [PURSUIT_DIST]. *)
Lemma pursuitSearch_inv segs curSeg c i d seg :
  nth_error segs curSeg = Some (c_seg c) ->
  pursuitSearch segs curSeg c = (i, d, seg) ->
  (curSeg <= i < List.length segs)%nat /\
  nth_error segs i = Some seg /\
  let d0 := - c_d c * Segment.length (c_seg c) in
  let before := arcLength (firstn (i - curSeg) (skipn curSeg segs)) in
  (d = PURSUIT_DIST - (d0 + before) /\
   d0 + before + Segment.length seg > PURSUIT_DIST /\
   ((curSeg < i)%nat -> d0 + before <= PURSUIT_DIST)) \/
  (i = (List.length segs - 1)%nat /\
   d = Segment.length seg /\
   d0 + arcLength (skipn curSeg segs) <= PURSUIT_DIST).
Proof.
  intros Hcs H. unfold pursuitSearch in H.
  assert (Hlt : (curSeg < List.length segs)%nat).
  { apply nth_error_Some. congruence. }
  destruct (pursuitLoop (skipn curSeg segs) curSeg
              (- c_d c * Segment.length (c_seg c)) (c_seg c))
    as [[i1 d1] seg1] eqn:Hloop.
  apply pursuitLoop_inv in Hloop.
  destruct Hloop as [(k & -> & Hk & -> & Hgt & Hprev)|(-> & -> & -> & Hend)].
  - rewrite nth_error_skipn in Hk.
    assert (Hik : (curSeg + k < List.length segs)%nat).
    { apply nth_error_Some. congruence. }
    destruct (Nat.eqb_spec (curSeg + k) (List.length segs)) as [E|_]; [lia|].
    injection H as <- <- <-.
    split; [lia|]. split; [assumption|]. simpl. left.
    replace (curSeg + k - curSeg)%nat with k by lia.
    repeat split; [assumption|]. intros Hpos. apply Hprev. lia.
  - rewrite length_skipn in H.
    replace (curSeg + (List.length segs - curSeg))%nat
      with (List.length segs) in H by lia.
    rewrite Nat.eqb_refl in H. injection H as <- <- <-.
    assert (Hne : skipn curSeg segs <> []).
    { intros E. apply (f_equal (@List.length _)) in E.
      rewrite length_skipn in E. simpl in E. lia. }
    split; [lia|]. split.
    + pose proof (nth_error_last (skipn curSeg segs) (c_seg c) Hne) as Hl.
      rewrite nth_error_skipn, length_skipn in Hl.
      replace (curSeg + (List.length segs - curSeg - 1))%nat
        with (Nat.pred (List.length segs)) in Hl by lia.
      exact Hl.
    + simpl. right. repeat split; [lia|]. apply Hend, Hne.
Qed.

(** ** One activation of [updatePP] *)

(** What each way out of an activation says about the way in. *)
Lemma activation_inv segs robotX robotY robotDir curSeg :
  match activation segs robotX robotY robotDir curSeg with
  | Return curSeg' (Normal Done) =>
      (curSeg <= curSeg')%nat /\ curSeg' = List.length segs /\
      forall j s, (curSeg <= j)%nat -> nth_error segs j = Some s ->
                  ~ projection s robotX robotY < 1
  | Return curSeg' Throws =>
      curSeg' = curSeg /\ (List.length segs < curSeg)%nat
  | Return curSeg' (Normal (Tracking r)) =>
      exists c i d seg,
        closestLoop (skipn curSeg segs) robotX robotY curSeg =
          (curSeg', Some c) /\
        pursuitSearch segs curSeg' c = (i, d, seg) /\
        (curSeg <= curSeg' < List.length segs)%nat /\
        nth_error segs curSeg' = Some (c_seg c) /\
        px0 r = c_px0 c /\ py0 r = c_py0 c /\
        px r = Segment.x1 seg + d * Segment.ndx seg /\
        py r = Segment.y1 seg + d * Segment.ndy seg /\
        (radiusInv r, badRadius r) =
          clampRadius
            (turnAngle (px r - robotX) (py r - robotY) robotDir)
            (rawRadiusInv (Math.hypot (px r - robotX) (py r - robotY))
                          (px r - robotX) (py r - robotY) robotDir)
  | Retry i =>
      exists curSeg' c d seg,
        closestLoop (skipn curSeg segs) robotX robotY curSeg =
          (curSeg', Some c) /\
        pursuitSearch segs curSeg' c = (i, d, seg) /\
        (curSeg <= curSeg' /\ curSeg' < i /\ i < List.length segs)%nat /\
        Math.hypot (Segment.x1 seg + d * Segment.ndx seg - robotX)
                   (Segment.y1 seg + d * Segment.ndy seg - robotY)
          < SKIP_DIST
  end.
Proof.
  unfold activation.
  destruct (closestLoop (skipn curSeg segs) robotX robotY curSeg)
    as [cs' [c|]] eqn:Hloop.
  - pose proof (closestLoop_inv _ _ _ _ _ _ Hloop) as (Hle & _ & Hc).
    destruct Hc as (Hnth & _).
    rewrite nth_error_skipn in Hnth.
    replace (curSeg + (cs' - curSeg))%nat with cs' in Hnth by lia.
    assert (Hlt : (cs' < List.length segs)%nat).
    { apply nth_error_Some. congruence. }
    destruct (pursuitSearch segs cs' c) as [[i d] seg] eqn:Hsearch.
    pose proof (pursuitSearch_inv _ _ _ _ _ _ Hnth Hsearch) as (Hi & _).
    set (pxv := Segment.x1 seg + d * Segment.ndx seg).
    set (pyv := Segment.y1 seg + d * Segment.ndy seg).
    destruct (ltb (Math.hypot (pxv - robotX) (pyv - robotY)) SKIP_DIST
              && negb (Nat.eqb cs' i)) eqn:Hskip.
    + apply andb_true_iff in Hskip. destruct Hskip as [Hd Hne].
      exists cs', c, d, seg.
      split; [reflexivity|]. split; [assumption|]. split.
      * apply negb_true_iff, Nat.eqb_neq in Hne. lia.
      * unfold ltb in Hd.
        destruct (Rlt_dec (Math.hypot (pxv - robotX) (pyv - robotY))
                          SKIP_DIST); [assumption|discriminate].
    + destruct (clampRadius _ _) as [ri bad] eqn:Hclamp.
      exists c, i, d, seg. simpl.
      repeat split; try assumption; try lia.
      fold pxv pyv. now rewrite Hclamp.
  - pose proof (closestLoop_inv _ _ _ _ _ _ Hloop) as (Hle & Hall & Hc).
    rewrite length_skipn in Hc.
    destruct (Nat.eqb_spec cs' (List.length segs)) as [E|E].
    + split; [assumption|]. split; [assumption|].
      intros j s Hj Hs.
      apply (Hall (j - curSeg)%nat s).
      * assert (j < List.length segs)%nat by (apply nth_error_Some; congruence).
        lia.
      * rewrite nth_error_skipn.
        now replace (curSeg + (j - curSeg))%nat with j by lia.
    + split; lia.
Qed.

(** ** The recursion of [updatePP] *)

Lemma activation_Retry_lt segs robotX robotY robotDir curSeg i :
  activation segs robotX robotY robotDir curSeg = Retry i ->
  (curSeg < i < List.length segs)%nat.
Proof.
  intros H. pose proof (activation_inv segs robotX robotY robotDir curSeg) as A.
  rewrite H in A. destruct A as (cs' & c & d & seg & _ & _ & Hlt & _). lia.
Qed.

Lemma activation_Return_le segs robotX robotY robotDir curSeg curSeg' r :
  activation segs robotX robotY robotDir curSeg = Return curSeg' r ->
  (curSeg <= curSeg')%nat.
Proof.
  intros H. pose proof (activation_inv segs robotX robotY robotDir curSeg) as A.
  rewrite H in A. destruct r as [[|r]|].
  - tauto.
  - destruct A as (c & i & d & seg & _ & _ & Hlt & _). lia.
  - lia.
Qed.

(** A result of [updatePP] is the result of its last activation, entered
    with a [curSeg] that is not below the initial one. *)
Lemma updatePP_rec_last depth segs robotX robotY robotDir :
  forall curSeg curSeg' r,
    updatePP_rec depth segs robotX robotY robotDir curSeg = Some (curSeg', r) ->
    exists k, (curSeg <= k)%nat /\
              activation segs robotX robotY robotDir k = Return curSeg' r.
Proof.
  induction depth as [|depth IH]; intros cs cs' r H; simpl in H; [discriminate|].
  destruct (activation segs robotX robotY robotDir cs) as [c1 r1|i] eqn:Hact.
  - injection H as <- <-. exists cs. split; [lia|assumption].
  - apply IH in H. destruct H as (k & Hk & Hret).
    apply activation_Retry_lt in Hact. exists k. split; [lia|assumption].
Qed.

Lemma updatePP_rec_monotone depth segs robotX robotY robotDir cs cs' r :
  updatePP_rec depth segs robotX robotY robotDir cs = Some (cs', r) ->
  (cs <= cs')%nat.
Proof.
  intros H. apply updatePP_rec_last in H. destruct H as (k & Hk & Hret).
  apply activation_Return_le in Hret. lia.
Qed.

(** Enough depth: one activation, and one more for every segment from
    [curSeg] on but the last. *)
Lemma updatePP_rec_total segs robotX robotY robotDir :
  forall depth curSeg,
    (1 <= depth)%nat -> (List.length segs - curSeg <= depth)%nat ->
    exists res,
      updatePP_rec depth segs robotX robotY robotDir curSeg = Some res.
Proof.
  induction depth as [|depth IH]; intros cs H1 Hd; [lia|]. simpl.
  destruct (activation segs robotX robotY robotDir cs) as [c1 r1|i] eqn:Hact.
  - eauto.
  - apply activation_Retry_lt in Hact. apply IH; lia.
Qed.

Lemma updatePP_rec_deeper segs robotX robotY robotDir :
  forall depth depth' curSeg res,
    updatePP_rec depth segs robotX robotY robotDir curSeg = Some res ->
    (depth <= depth')%nat ->
    updatePP_rec depth' segs robotX robotY robotDir curSeg = Some res.
Proof.
  induction depth as [|depth IH]; intros depth' cs res H Hle; [discriminate|].
  destruct depth' as [|depth']; [lia|]. simpl in *.
  destruct (activation segs robotX robotY robotDir cs) as [c1 r1|i].
  - assumption.
  - apply IH; [assumption|lia].
Qed.

(** C9.  [updatePP] is total and its recursion is bounded by the number
    of segments.  An activation calls [updatePP] again only when the
    distance from the robot to the pursuit point is below [SKIP_DIST] and
    the segment [i] of the pursuit point is beyond [curSeg]; the new
    [curSeg = i] is strictly greater than the one the activation started
    with and is below the number of segments.  Hence, for every segment
    list, robot pose and [curSeg], a depth of [max 1 (number of segments)]
    activations yields a result, and every greater depth yields the same
    one. *)
Theorem updatePP_terminates (segs : list Segment.t)
        (robotX robotY robotDir : R) (curSeg : nat) :
  (forall i,
      activation segs robotX robotY robotDir curSeg = Retry i ->
      exists curSeg' c d seg,
        closestLoop (skipn curSeg segs) robotX robotY curSeg =
          (curSeg', Some c) /\
        pursuitSearch segs curSeg' c = (i, d, seg) /\
        Math.hypot (Segment.x1 seg + d * Segment.ndx seg - robotX)
                   (Segment.y1 seg + d * Segment.ndy seg - robotY)
          < SKIP_DIST /\
        (curSeg <= curSeg')%nat /\ (curSeg' < i)%nat /\
        (i < List.length segs)%nat) /\
  (exists res,
      updatePP_rec (Nat.max 1 (List.length segs))
                   segs robotX robotY robotDir curSeg = Some res /\
      forall depth,
        (Nat.max 1 (List.length segs) <= depth)%nat ->
        updatePP_rec depth segs robotX robotY robotDir curSeg = Some res).
Proof.
  split.
  - intros i H.
    pose proof (activation_inv segs robotX robotY robotDir curSeg) as A.
    rewrite H in A. destruct A as (cs' & c & d & seg & Hc & Hs & Hlt & Hd).
    exists cs', c, d, seg. repeat split; try assumption; lia.
  - destruct (updatePP_rec_total segs robotX robotY robotDir
                (Nat.max 1 (List.length segs)) curSeg) as [res Hres]; [lia..|].
    exists res. split; [assumption|].
    intros depth Hd. now apply updatePP_rec_deeper with (2 := Hd).
Qed.

(** ** [updatePP] and [ppFrame] on the globals *)

(** [updatePP] assigns [curSeg] and, through [stopPP], [ppRunning]; it
    leaves the path, the pose of the robot and the clock alone. *)
Lemma updatePP_preserves g g' r :
  updatePP g = (g', r) ->
  waypoints g' = waypoints g /\ segments g' = segments g /\
  robotX g' = robotX g /\ robotY g' = robotY g /\
  robotDir g' = robotDir g /\ lastFrame g' = lastFrame g.
Proof.
  unfold updatePP. intros H.
  destruct (segments g) as [segs|] eqn:Hs, (curSeg g) as [cs|] eqn:Hc,
           (robotX g) as [rX|] eqn:Hx, (robotY g) as [rY|] eqn:Hy,
           (robotDir g) as [rD|] eqn:Hd;
    try (injection H as <- <-; repeat split; congruence).
  destruct (updatePP_rec _ segs rX rY rD cs) as [[cs' [[|res]|]]|];
    injection H as <- <-; simpl; repeat split; congruence.
Qed.

(** What [updatePP] does when every variable it reads is assigned. *)
Lemma updatePP_assigned g segs cs rX rY rD :
  segments g = Some segs -> curSeg g = Some cs ->
  robotX g = Some rX -> robotY g = Some rY -> robotDir g = Some rD ->
  exists cs' r,
    updatePP_rec (S (List.length segs)) segs rX rY rD cs = Some (cs', r) /\
    updatePP g =
      (match r with
       | Normal Done => stopPP (set_curSeg cs' g)
       | _ => set_curSeg cs' g
       end, r).
Proof.
  intros Hs Hc Hx Hy Hd.
  destruct (updatePP_rec_total segs rX rY rD (S (List.length segs)) cs)
    as [[cs' r] Hres]; [lia..|].
  exists cs', r. split; [assumption|].
  unfold updatePP. rewrite Hs, Hc, Hx, Hy, Hd, Hres.
  destruct r as [[|res]|]; reflexivity.
Qed.

Lemma updatePP_curSeg g g' r cs :
  curSeg g = Some cs -> updatePP g = (g', r) ->
  exists cs', curSeg g' = Some cs' /\ (cs <= cs')%nat.
Proof.
  intros Hc H.
  destruct (segments g) as [segs|] eqn:Hs;
    [destruct (robotX g) as [rX|] eqn:Hx;
     [destruct (robotY g) as [rY|] eqn:Hy;
      [destruct (robotDir g) as [rD|] eqn:Hd|]|]|].
  - destruct (updatePP_assigned g segs cs rX rY rD Hs Hc Hx Hy Hd)
      as (cs' & r' & Hrec & Hup).
    rewrite Hup in H. apply updatePP_rec_monotone in Hrec.
    injection H as <- <-. exists cs'.
    split; [|assumption]. destruct r' as [[|res]|]; reflexivity.
  - unfold updatePP in H. rewrite Hs, Hc, Hx, Hy, Hd in H.
    injection H as <- <-. eauto.
  - unfold updatePP in H. rewrite Hs, Hc, Hx, Hy in H.
    injection H as <- <-. eauto.
  - unfold updatePP in H. rewrite Hs, Hc, Hx in H.
    injection H as <- <-. eauto.
  - unfold updatePP in H. rewrite Hs in H.
    injection H as <- <-. eauto.
Qed.

Lemma moveRobot_curSeg dt ri g : curSeg (moveRobot dt ri g) = curSeg g.
Proof.
  unfold moveRobot.
  destruct (robotX g), (robotY g), (robotDir g); reflexivity.
Qed.

Lemma ppFrame_curSeg t g g' r cs :
  curSeg g = Some cs -> ppFrame t g = (g', r) ->
  exists cs', curSeg g' = Some cs' /\ (cs <= cs')%nat.
Proof.
  intros Hc H. unfold ppFrame in H.
  destruct (lastFrame g) as [last|].
  - destruct (updatePP (set_lastFrame t g)) as [g1 r1] eqn:Hup.
    apply updatePP_curSeg with (cs := cs) in Hup; [|assumption].
    destruct Hup as (cs' & Hcs' & Hle).
    exists cs'. split; [|assumption].
    destruct r1 as [[|res]|]; injection H as <- <-;
      rewrite ?moveRobot_curSeg; assumption.
  - injection H as <- <-. eauto.
Qed.

Lemma frames_curSeg clock : forall g cs,
  curSeg g = Some cs ->
  exists cs', curSeg (frames clock g) = Some cs' /\ (cs <= cs')%nat.
Proof.
  induction clock as [|t clock IH]; intros g cs Hc; simpl.
  - eauto.
  - destruct (ppRunning g); [|eauto].
    destruct (ppFrame t g) as [g1 r1] eqn:Hf.
    destruct (ppFrame_curSeg _ _ _ _ _ Hc Hf) as (cs1 & Hc1 & Hle1).
    destruct r1 as [u|].
    + destruct (IH g1 cs1 Hc1) as (cs2 & Hc2 & Hle2).
      exists cs2. split; [assumption|lia].
    + eauto.
Qed.

(** A [startPP] that does not throw has run its first frame from a state
    where [curSeg] is [0]. *)
Lemma startPP_resets t0 t1 g g' :
  startPP t0 t1 g = (g', Normal tt) ->
  exists g0, curSeg g0 = Some 0%nat /\ ppRunning g0 = true /\
             startPP t0 t1 g = ppFrame t1 g0.
Proof.
  unfold startPP. intros H.
  destruct (nth_error (waypoints (set_segments _ g)) 0) as [w0|];
    [|discriminate].
  destruct (nth_error (getSegments (waypoints g)) 0) as [s0|];
    [|discriminate].
  eexists. split; [|split; [|reflexivity]]; reflexivity.
Qed.

(** C8.  [curSeg] never decreases within a run: not over the recursion of
    [updatePP], not over a call of [updatePP] or of [ppFrame], not over any
    number of frames; [stopPP] and the move of the robot leave it alone;
    and it is [startPP] that sets it to [0], before the first frame of the
    run. *)
Theorem curSeg_never_decreases :
  (forall depth segs rX rY rD cs cs' r,
      updatePP_rec depth segs rX rY rD cs = Some (cs', r) ->
      (cs <= cs')%nat) /\
  (forall g g' r cs,
      curSeg g = Some cs -> updatePP g = (g', r) ->
      exists cs', curSeg g' = Some cs' /\ (cs <= cs')%nat) /\
  (forall t g g' r cs,
      curSeg g = Some cs -> ppFrame t g = (g', r) ->
      exists cs', curSeg g' = Some cs' /\ (cs <= cs')%nat) /\
  (forall clock g cs,
      curSeg g = Some cs ->
      exists cs', curSeg (frames clock g) = Some cs' /\ (cs <= cs')%nat) /\
  (forall g, curSeg (stopPP g) = curSeg g) /\
  (forall dt ri g, curSeg (moveRobot dt ri g) = curSeg g) /\
  (forall t0 t1 g g',
      startPP t0 t1 g = (g', Normal tt) ->
      exists g0, curSeg g0 = Some 0%nat /\ ppRunning g0 = true /\
                 startPP t0 t1 g = ppFrame t1 g0).
Proof.
  split; [exact updatePP_rec_monotone|].
  split; [intros g g' r cs; apply updatePP_curSeg|].
  split; [intros t g g' r cs; apply ppFrame_curSeg|].
  split; [exact frames_curSeg|].
  split; [reflexivity|].
  split; [exact moveRobot_curSeg|].
  exact startPP_resets.
Qed.

(** ** The end of the path *)




(** A call of [updatePP] that returns steering data is a run of
    [updatePP_rec] on the values of the globals; it assigns [curSeg] and
    nothing else. *)
Lemma updatePP_Tracking_inv g g' r :
  updatePP g = (g', Normal (Tracking r)) ->
  exists segs cs rX rY rD cs',
    segments g = Some segs /\ curSeg g = Some cs /\
    robotX g = Some rX /\ robotY g = Some rY /\ robotDir g = Some rD /\
    updatePP_rec (S (List.length segs)) segs rX rY rD cs =
      Some (cs', Normal (Tracking r)) /\
    g' = set_curSeg cs' g.
Proof.
  unfold updatePP. intros H.
  destruct (segments g) as [segs|], (curSeg g) as [cs|],
           (robotX g) as [rX|], (robotY g) as [rY|], (robotDir g) as [rD|];
    try discriminate.
  destruct (updatePP_rec _ segs rX rY rD cs) as [[cs' r']|] eqn:Hrec;
    [|discriminate].
  destruct r' as [[|res]|]; try discriminate.
  injection H as <- <-.
  exists segs, cs, rX, rY, rD, cs'. auto 10.
Qed.


(** ** Concrete runs *)

Lemma getSegments_straightPath : getSegments straightPath = [straightSegment].
Proof.
  unfold straightPath, straightSegment. cbn [getSegments]. unfold segmentOf.
  cbn [Waypoint.x Waypoint.y].
  replace (200 - 0) with 200 by ring. replace (0 - 0) with 0 by ring.
  rewrite hypot_horizontal by lra. rewrite atan2_positive_axis by lra.
  replace (200 / 200) with 1 by field. replace (0 / 200) with 0 by field.
  reflexivity.
Qed.

(** The robot behind the start of the straight path, at [(-100, 0)] with
    any heading: the closest point is the start, the pursuit point is
    [(70, 0)], and the controller returns steering data. *)
Lemma straight_run_activation h :
  exists r,
    activation [straightSegment] (-100) 0 h 0 =
      Return 0 (Normal (Tracking r)) /\
    px0 r = 0 /\ py0 r = 0 /\ px r = 70 /\ py r = 0.
Proof.
  unfold activation, straightSegment. cbn [skipn closestLoop].
  unfold projection. seg_fields. decide_Rlt.
  unfold pursuitSearch. seg_fields. cbn [skipn pursuitLoop]. seg_fields.
  unfold PURSUIT_DIST. decide_Rlt.
  cbn [Nat.eqb List.length]. seg_fields.
  replace (0 + (70 - - 0 * 200) * 1 - -100) with 170 by ring.
  replace (0 + (70 - - 0 * 200) * 0 - 0) with 0 by ring.
  rewrite hypot_horizontal by lra.
  unfold ltb, SKIP_DIST. decide_Rlt. cbn [andb].
  destruct (clampRadius _ _) as [ri bad].
  eexists. split; [reflexivity|]. cbn [px0 py0 px py c_px0 c_py0].
  repeat split; ring.
Qed.

(** The same run through [updatePP], with what it returns: the turn angle
    is [PI/2 + h] and the distance to the pursuit point [170]. *)
Lemma straight_run h :
  exists r,
    updatePP_rec 1 (getSegments straightPath) (-100) 0 h 0 =
      Some (0%nat, Normal (Tracking r)) /\
    px0 r = 0 /\ py0 r = 0 /\ px r = 70 /\ py r = 0 /\
    Math.hypot (px r - -100) (py r - 0) = 170 /\
    Math.atan2 (py r - 0) (px r - -100) = 0 /\
    (radiusInv r, badRadius r) =
      clampRadius (PI / 2 + h) (cos (PI / 2 + h) / 85).
Proof.
  destruct (straight_run_activation h) as (r & Hact & Hx0 & Hy0 & Hx & Hy).
  exists r. rewrite getSegments_straightPath. cbn [updatePP_rec].
  rewrite Hact. split; [reflexivity|].
  pose proof (activation_inv [straightSegment] (-100) 0 h 0) as A.
  rewrite Hact in A.
  destruct A as (c & i & d & seg & _ & _ & _ & _ & _ & _ & _ & _ & Hclamp).
  assert (HL : Math.hypot (px r - -100) (py r - 0) = 170).
  { rewrite Hx, Hy. replace (70 - -100) with 170 by ring.
    replace (0 - 0) with 0 by ring. apply hypot_horizontal. lra. }
  assert (HB : Math.atan2 (py r - 0) (px r - -100) = 0).
  { rewrite Hx, Hy. replace (70 - -100) with 170 by ring.
    replace (0 - 0) with 0 by ring. apply atan2_positive_axis. lra. }
  repeat split; try assumption.
  rewrite Hclamp. unfold rawRadiusInv, turnAngle. rewrite HL, HB.
  replace (PI / 2 - (0 - h)) with (PI / 2 + h) by ring.
  replace (170 / 2) with 85 by field. reflexivity.
Qed.


(** The robot half way along the folded path: the pursuit point is on
    the way back, [30] away, and the controller skips to that segment. *)
Lemma folded_run_retries h :
  activation foldedSegments 50 0 h 0 = Retry 1.
Proof.
  unfold activation, foldedSegments. cbn [skipn closestLoop].
  unfold projection. seg_fields. decide_Rlt.
  unfold pursuitSearch. seg_fields. cbn [skipn pursuitLoop]. seg_fields.
  unfold PURSUIT_DIST. decide_Rlt.
  cbn [Nat.eqb List.length]. seg_fields.
  match goal with
  | |- context [Math.hypot ?a ?b] =>
      replace a with 30 by field; replace b with 0 by field
  end.
  rewrite hypot_horizontal by lra.
  unfold ltb, SKIP_DIST. decide_Rlt. reflexivity.
Qed.

(** ** Curvature *)

(** Lines 122-124 compute the curvature of pure pursuit: twice the sine of
    the angle between the heading and the bearing of the target, over the
    distance to the target. *)
Lemma rawRadiusInv_formula d pdx pdy robotDir :
  rawRadiusInv d pdx pdy robotDir =
    2 * sin (Math.atan2 pdy pdx - robotDir) / d.
Proof.
  unfold rawRadiusInv, turnAngle. rewrite cos_shift.
  destruct (Req_dec d 0) as [->|Hd].
  - unfold Rdiv. rewrite Rmult_0_l, Rinv_0. ring.
  - field. assumption.
Qed.

(** The steering data of a tick are those of its last activation. *)
Lemma updatePP_rec_Tracking depth segs rX rY rD cs cs' r :
  updatePP_rec depth segs rX rY rD cs = Some (cs', Normal (Tracking r)) ->
  (radiusInv r, badRadius r) =
    clampRadius
      (turnAngle (px r - rX) (py r - rY) rD)
      (rawRadiusInv (Math.hypot (px r - rX) (py r - rY))
                    (px r - rX) (py r - rY) rD).
Proof.
  intros H. apply updatePP_rec_last in H. destruct H as (k & _ & Hact).
  pose proof (activation_inv segs rX rY rD k) as A. rewrite Hact in A.
  destruct A as (c & i & d & seg & _ & _ & _ & _ & _ & _ & _ & _ & Hclamp).
  exact Hclamp.
Qed.

(** What a tick returns is the clamp of line 126 applied to the curvature
    of pure pursuit. *)
Lemma curvature_is_raw depth segs rX rY rD cs cs' r :
  updatePP_rec depth segs rX rY rD cs = Some (cs', Normal (Tracking r)) ->
  (radiusInv r, badRadius r) =
    clampRadius
      (PI / 2 - (Math.atan2 (py r - rY) (px r - rX) - rD))
      (2 * sin (Math.atan2 (py r - rY) (px r - rX) - rD) /
       Math.hypot (px r - rX) (py r - rY)).
Proof.
  intros H. rewrite (updatePP_rec_Tracking _ _ _ _ _ _ _ _ H).
  now rewrite rawRadiusInv_formula.
Qed.

(** ** The clamp *)

Lemma gtb_true_iff a b : gtb a b = true <-> a > b.
Proof.
  unfold gtb. destruct (Rgt_dec a b); split; intros; try assumption;
    try reflexivity; try discriminate; contradiction.
Qed.

Lemma clampTest_true_iff a ri :
  clampTest a ri = true <->
  normalizeAngle a > PI \/ Rabs ri > 1 / MIN_TURN_RADIUS.
Proof.
  unfold clampTest, Math.abs. rewrite orb_true_iff, !gtb_true_iff. tauto.
Qed.

Lemma clampRadius_inv a ri ri' bad :
  (ri', bad) = clampRadius a ri ->
  (bad = true <-> normalizeAngle a > PI \/ Rabs ri > 1 / MIN_TURN_RADIUS) /\
  (bad = true -> ri' = Math.sign ri * 1 / MIN_TURN_RADIUS) /\
  (bad = false -> ri' = ri).
Proof.
  unfold clampRadius. rewrite <- clampTest_true_iff.
  destruct (clampTest a ri); intros H; injection H as -> ->.
  - repeat split; auto; discriminate.
  - repeat split; auto; discriminate.
Qed.

Lemma clamped_magnitude c :
  c <> 0 ->
  Rabs (Math.sign c * 1 / MIN_TURN_RADIUS) = 1 / MIN_TURN_RADIUS.
Proof.
  intros Hc. unfold Rdiv.
  rewrite Rmult_1_r, Rmult_1_l, Rabs_mult, (sign_abs _ Hc), Rmult_1_l.
  apply Rabs_pos_eq. unfold MIN_TURN_RADIUS.
  left. apply Rinv_0_lt_compat. lra.
Qed.

(** With the pursuit point [170] away, the curvature is too small for
    the magnitude test of the clamp. *)
Lemma far_target_small_curvature x :
  ~ Rabs (cos x / 85) > 1 / MIN_TURN_RADIUS.
Proof.
  unfold MIN_TURN_RADIUS. pose proof (COS_bound x) as [Hl Hu].
  unfold Rabs. destruct (Rcase_abs (cos x / 85)); lra.
Qed.

(** [normalizeAngle] returns the angle of [[0, 2*PI)] that differs from its
    argument by a whole number of turns. *)
Lemma trunc_bounds q :
  (q < 0 -> q <= IZR (Math.trunc q) < q + 1) /\
  (0 <= q -> q - 1 < IZR (Math.trunc q) <= q).
Proof.
  unfold Math.trunc. destruct (Rlt_dec q 0) as [Hq|Hq].
  - pose proof (Zceil_bound q). split; intros; lra.
  - pose proof (Zfloor_bound q). split; intros; lra.
Qed.

Lemma normalizeAngle_spec a :
  (exists k : Z, normalizeAngle a = a + 2 * IZR k * PI) /\
  0 <= normalizeAngle a < 2 * PI.
Proof.
  pose proof PI_RGT_0 as Hpi.
  unfold normalizeAngle, Math.fmod.
  set (q := a / (2 * PI)).
  assert (Ha : a = 2 * PI * q) by (unfold q; field; lra).
  pose proof (trunc_bounds q) as [Hneg Hpos].
  set (k := Math.trunc q) in *.
  destruct (Rlt_dec (a - 2 * PI * IZR k) 0) as [Hm|Hm].
  - split.
    + exists (1 - k)%Z. rewrite minus_IZR. ring.
    + destruct (Rlt_dec q 0) as [Hq|Hq].
      * specialize (Hneg Hq). rewrite Ha. nra.
      * assert (0 <= q) as Hq' by lra. specialize (Hpos Hq').
        rewrite Ha in Hm. nra.
  - split.
    + exists (- k)%Z. rewrite opp_IZR. ring.
    + destruct (Rlt_dec q 0) as [Hq|Hq].
      * specialize (Hneg Hq). rewrite Ha in Hm |- *. nra.
      * assert (0 <= q) as Hq' by lra. specialize (Hpos Hq').
        rewrite Ha. nra.
Qed.

Lemma sin_period_Z x (k : Z) : sin (x + 2 * IZR k * PI) = sin x.
Proof.
  destruct k as [|p|p].
  - f_equal. ring.
  - replace (IZR (Z.pos p)) with (INR (Pos.to_nat p))
      by (now rewrite INR_IZR_INZ, positive_nat_Z).
    apply sin_period.
  - rewrite <- (sin_period (x + 2 * IZR (Z.neg p) * PI) (Pos.to_nat p)).
    f_equal.
    replace (INR (Pos.to_nat p)) with (IZR (Z.pos p))
      by (now rewrite INR_IZR_INZ, positive_nat_Z).
    change (Z.neg p) with (- Z.pos p)%Z. rewrite opp_IZR. ring.
Qed.

(** The angle test of line 126, on [a = PI/2 - alpha], holds exactly when
    the cosine of [alpha] is negative: the pursuit point is behind the
    robot. *)
Lemma angle_test_iff_behind alpha :
  normalizeAngle (PI / 2 - alpha) > PI <-> cos alpha < 0.
Proof.
  destruct (normalizeAngle_spec (PI / 2 - alpha)) as [[k Hk] [Hl Hu]].
  assert (Hsin : sin (normalizeAngle (PI / 2 - alpha)) = cos alpha).
  { rewrite Hk, sin_period_Z. apply sin_shift. }
  split.
  - intros Hgt. rewrite <- Hsin. apply sin_lt_0; lra.
  - intros Hcos.
    destruct (Rle_lt_dec (normalizeAngle (PI / 2 - alpha)) PI) as [Hle|Hgt];
      [|exact Hgt].
    pose proof (sin_ge_0 _ Hl Hle). lra.
Qed.

(** C3, as the specification states it, fails: the angle that line 126
    normalizes is [a = PI/2 - alpha], not [alpha].  With the robot at
    [(-100, 0)] heading [PI/4] on the straight path, [alpha = -PI/4], which
    normalized to [[0, 2*PI)] is [7*PI/4 > PI], and yet the curvature
    is returned as computed, with the flag false. *)
Lemma clamp_tests_alpha_cex :
  exists r,
    updatePP_rec 1 (getSegments straightPath) (-100) 0 (PI / 4) 0 =
      Some (0%nat, Normal (Tracking r)) /\
    normalizeAngle (Math.atan2 (py r - 0) (px r - -100) - PI / 4) > PI /\
    badRadius r = false /\
    radiusInv r = cos (PI / 2 + PI / 4) / 85.
Proof.
  pose proof PI_RGT_0 as Hpi.
  destruct (straight_run (PI / 4))
    as (r & Hrun & _ & _ & _ & _ & _ & HB & Hclamp).
  exists r. split; [exact Hrun|]. split.
  - rewrite HB, normalizeAngle_negative; lra.
  - apply clampRadius_inv in Hclamp. destruct Hclamp as (Hiff & _ & Hraw).
    assert (Hbad : badRadius r = false).
    { destruct (badRadius r); [|reflexivity].
      destruct (proj1 Hiff eq_refl) as [Hang|Hmag].
      - rewrite normalizeAngle_small in Hang; lra.
      - now apply far_target_small_curvature in Hmag. }
    split; [exact Hbad|exact (Hraw Hbad)].
Qed.

(** C3, amended.  On every tick that returns steering data, with
    [alpha = bearing - robotDir] and the curvature [2*sin(alpha)/L]: the flag
    is set exactly when [PI/2 - alpha] normalized to [[0, 2*PI)] exceeds [PI]
    (that is, when [cos(alpha) < 0]: the pursuit point is behind the
    robot) or the magnitude of the curvature exceeds [1/MIN_TURN_RADIUS];
    the returned curvature is then [sign(curvature)/MIN_TURN_RADIUS], of
    magnitude [1/MIN_TURN_RADIUS] whenever the curvature is not [0];
    otherwise the curvature is returned as computed, with the flag
    false. *)
Theorem clamp_rule
        (depth : nat) (segs : list Segment.t) (rX rY rD : R)
        (cs cs' : nat) (r : PursuitResult) :
  updatePP_rec depth segs rX rY rD cs = Some (cs', Normal (Tracking r)) ->
  let L := Math.hypot (px r - rX) (py r - rY) in
  let alpha := Math.atan2 (py r - rY) (px r - rX) - rD in
  let curvature := 2 * sin alpha / L in
  (badRadius r = true <->
   normalizeAngle (PI / 2 - alpha) > PI \/
   Rabs curvature > 1 / MIN_TURN_RADIUS) /\
  (normalizeAngle (PI / 2 - alpha) > PI <-> cos alpha < 0) /\
  (badRadius r = true ->
   radiusInv r = Math.sign curvature * 1 / MIN_TURN_RADIUS /\
   (curvature <> 0 -> Rabs (radiusInv r) = 1 / MIN_TURN_RADIUS)) /\
  (badRadius r = false -> radiusInv r = curvature).
Proof.
  intros H L alpha curvature.
  pose proof (curvature_is_raw depth segs rX rY rD cs cs' r H) as Hclamp.
  apply clampRadius_inv in Hclamp. destruct Hclamp as (Hiff & Hcl & Hraw).
  split; [exact Hiff|]. split; [apply angle_test_iff_behind|].
  split; [|exact Hraw].
  intros Hbad. split; [exact (Hcl Hbad)|].
  intros Hne. rewrite (Hcl Hbad). now apply clamped_magnitude.
Qed.

Lemma clamp_rule_witness :
  exists r,
    updatePP_rec 1 (getSegments straightPath) (-100) 0 (PI / 4) 0 =
      Some (0%nat, Normal (Tracking r)) /\
    (badRadius r = false ->
     radiusInv r =
       2 * sin (Math.atan2 (py r - 0) (px r - -100) - PI / 4) /
       Math.hypot (px r - -100) (py r - 0)).
Proof.
  destruct (straight_run (PI / 4)) as (r & Hrun & _).
  exists r. split; [exact Hrun|].
  exact (proj2 (proj2 (proj2 (clamp_rule _ _ _ _ _ _ _ _ Hrun)))).
Defined.


(** ** The pursuit point *)

Lemma arcLength_cons s l :
  arcLength (s :: l) = Segment.length s + arcLength l.
Proof. reflexivity. Qed.

Lemma arcLength_app l1 l2 :
  arcLength (l1 ++ l2) = arcLength l1 + arcLength l2.
Proof.
  induction l1 as [|s l1 IH]; simpl; [ring|]. rewrite IH. ring.
Qed.

Lemma arcLength_nonneg l :
  (forall s, In s l -> 0 <= Segment.length s) -> 0 <= arcLength l.
Proof.
  induction l as [|s l IH]; intros H; simpl; [lra|].
  assert (0 <= Segment.length s) by (apply H; now left).
  assert (0 <= arcLength l) by (apply IH; intros; apply H; now right).
  lra.
Qed.

(** The arc length up to segment [i] is the arc length up to segment
    [c <= i] plus the one from [c] to [i]. *)
Lemma arcLength_firstn_split l : forall c i,
  (c <= i)%nat ->
  arcLength (firstn i l) =
    arcLength (firstn c l) + arcLength (firstn (i - c) (skipn c l)).
Proof.
  induction l as [|s l IH]; intros c i Hci.
  - rewrite !firstn_nil, skipn_nil, firstn_nil. simpl. ring.
  - destruct c as [|c].
    + rewrite Nat.sub_0_r.
      change (arcLength (firstn i (s :: l)) =
              0 + arcLength (firstn i (s :: l))). ring.
    + destruct i as [|i]; [lia|].
      rewrite Nat.sub_succ, skipn_cons, !firstn_cons, !arcLength_cons.
      rewrite (IH c i) by lia. ring.
Qed.

(** From a segment on, the arc length is that of a stretch before some
    later segment, plus that segment, plus a rest. *)
Lemma arcLength_skipn_split l k s :
  nth_error l k = Some s ->
  arcLength l =
    arcLength (firstn k l) + Segment.length s + arcLength (skipn (S k) l).
Proof.
  revert k. induction l as [|a l IH]; intros k Hk.
  - destruct k; discriminate.
  - destruct k as [|k]; simpl in Hk.
    + injection Hk as ->.
      change (arcLength (s :: l) = 0 + Segment.length s + arcLength l).
      rewrite arcLength_cons. ring.
    + rewrite skipn_cons, firstn_cons, !arcLength_cons, (IH k Hk). ring.
Qed.

Lemma getSegments_lengths_nonneg wps s :
  In s (getSegments wps) -> 0 <= Segment.length s.
Proof.
  intros Hin. apply In_nth_error in Hin. destruct Hin as [i Hi].
  apply getSegments_nth_inv in Hi. destruct Hi as (p & q & _ & _ & ->).
  apply hypot_nonneg.
Qed.

Lemma distinctNeighbours_nth wps : forall i p q,
  distinctNeighbours wps ->
  nth_error wps i = Some p -> nth_error wps (S i) = Some q -> p <> q.
Proof.
  induction wps as [|w [|w' rest] IH]; intros i p q Hd Hp Hq.
  - destruct i; discriminate.
  - destruct i; simpl in Hq; [discriminate|destruct i; discriminate].
  - destruct Hd as [Hne Hd]. destruct i as [|i].
    + simpl in Hp, Hq. congruence.
    + apply (IH i p q Hd); assumption.
Qed.

Lemma segmentOf_length_pos p q :
  p <> q -> 0 < Segment.length (segmentOf p q).
Proof.
  intros Hne. simpl.
  destruct (Rle_lt_or_eq_dec _ _ (hypot_nonneg
              (Waypoint.x q - Waypoint.x p) (Waypoint.y q - Waypoint.y p)))
    as [Hlt|Heq]; [exact Hlt|].
  symmetry in Heq. apply hypot_zero_iff in Heq. destruct Heq as [Hx Hy].
  exfalso. apply Hne. destruct p as [xp yp], q as [xq yq]. simpl in *.
  f_equal; lra.
Qed.

(** The end of a segment of positive length is its start moved by its
    length along its direction. *)
Lemma segmentOf_end p q :
  p <> q ->
  Segment.x1 (segmentOf p q) +
    Segment.length (segmentOf p q) * Segment.ndx (segmentOf p q)
  = Waypoint.x q /\
  Segment.y1 (segmentOf p q) +
    Segment.length (segmentOf p q) * Segment.ndy (segmentOf p q)
  = Waypoint.y q.
Proof.
  intros Hne. pose proof (segmentOf_length_pos p q Hne) as Hpos.
  simpl in *. split; field; lra.
Qed.

Lemma In_skipn_list {A : Type} (n : nat) (l : list A) (a : A) :
  In a (skipn n l) -> In a l.
Proof.
  intros H. rewrite <- (firstn_skipn n l). apply in_or_app. now right.
Qed.

(** C2.  On every tick that returns steering data, on a path without
    coincident consecutive waypoints: the closest point lies on segment
    [curSeg] at the fraction [f = max(0, projection)] of it; when the arc
    length that remains from the closest point to the end of the path
    exceeds [PURSUIT_DIST], the pursuit point lies on a segment [i] at an
    offset [t] within it such that the arc length along the polyline from
    the closest point to it (the sum of the segment lengths, not the chord)
    is exactly [PURSUIT_DIST]; and when the remaining arc length is at most
    [PURSUIT_DIST], the pursuit point is the last waypoint. *)
Theorem pursuit_point_at_lookahead
        (wps : list Waypoint.t) (depth : nat) (rX rY rD : R)
        (cs cs' : nat) (r : PursuitResult) :
  distinctNeighbours wps ->
  updatePP_rec depth (getSegments wps) rX rY rD cs =
    Some (cs', Normal (Tracking r)) ->
  let segs := getSegments wps in
  exists sc f,
    nth_error segs cs' = Some sc /\
    f = Rmax 0 (projection sc rX rY) /\ 0 <= f < 1 /\
    px0 r = Segment.x1 sc + f * Segment.dx sc /\
    py0 r = Segment.y1 sc + f * Segment.dy sc /\
    let closestAt := arcLength (firstn cs' segs) + f * Segment.length sc in
    let remaining := arcLength (skipn cs' segs) - f * Segment.length sc in
    (remaining > PURSUIT_DIST ->
     exists i si t,
       (cs' <= i)%nat /\ nth_error segs i = Some si /\
       0 <= t < Segment.length si /\
       px r = Segment.x1 si + t * Segment.ndx si /\
       py r = Segment.y1 si + t * Segment.ndy si /\
       (arcLength (firstn i segs) + t) - closestAt = PURSUIT_DIST) /\
    (remaining <= PURSUIT_DIST ->
     exists w,
       nth_error wps (List.length wps - 1) = Some w /\
       px r = Waypoint.x w /\ py r = Waypoint.y w).
Proof.
  intros Hdist H segs.
  apply updatePP_rec_last in H. destruct H as (k & _ & Hact).
  pose proof (activation_inv segs rX rY rD k) as A.
  unfold segs in A at 1. rewrite Hact in A. fold segs in A.
  destruct A as (c & i & d & seg & Hclosest & Hsearch & Hrange & Hnth &
                 Hpx0 & Hpy0 & Hpx & Hpy & _).
  apply closestLoop_inv in Hclosest.
  destruct Hclosest as (_ & _ & _ & Hproj & Hcd & Hcx & Hcy).
  destruct (pursuitSearch_inv _ _ _ _ _ _ Hnth Hsearch)
    as (Hi & Hsegi & Hcases).
  cbv zeta in Hcases.
  set (f := c_d c) in *. set (sc := c_seg c) in *.
  set (rest := skipn cs' segs) in *.
  assert (Hf : 0 <= f < 1).
  { rewrite Hcd. split; [apply Rmax_l|]. apply Rmax_lub_lt; lra. }
  assert (Hlen : 0 <= Segment.length sc).
  { apply getSegments_lengths_nonneg with wps.
    apply nth_error_In with cs'. exact Hnth. }
  assert (Hk : nth_error rest (i - cs') = Some seg).
  { unfold rest. rewrite nth_error_skipn.
    now replace (cs' + (i - cs'))%nat with i by lia. }
  pose proof (arcLength_skipn_split rest (i - cs') seg Hk) as Hsplit.
  assert (Htail : 0 <= arcLength (skipn (S (i - cs')) rest)).
  { apply arcLength_nonneg. intros s Hs.
    apply getSegments_lengths_nonneg with wps.
    apply In_skipn_list with cs'. fold segs rest.
    apply In_skipn_list with (S (i - cs')). exact Hs. }
  assert (Hpos : 0 < PURSUIT_DIST) by (unfold PURSUIT_DIST; lra).
  exists sc, f.
  split; [exact Hnth|]. split; [exact Hcd|]. split; [exact Hf|].
  split; [now rewrite Hpx0|]. split; [now rewrite Hpy0|].
  cbv zeta. split.
  - intros Hrem.
    destruct Hcases as [(Hd & Hgt & Hprev)|(_ & _ & Hend)]; [|lra].
    exists i, seg, d.
    split; [lia|]. split; [exact Hsegi|]. split.
    + split; [|lra].
      destruct (Nat.eq_dec cs' i) as [E|E].
      * subst i. rewrite Nat.sub_diag in Hd. simpl in Hd. nra.
      * assert (cs' < i)%nat as Hlt by lia. specialize (Hprev Hlt). lra.
    + split; [exact Hpx|]. split; [exact Hpy|].
      rewrite (arcLength_firstn_split segs cs' i) by lia.
      fold rest. lra.
  - intros Hrem.
    destruct Hcases as [(Hd & Hgt & Hprev)|(Hlast & Hd & Hend)]; [lra|].
    destruct (getSegments_nth_inv wps i seg Hsegi)
      as (p & q & Hp & Hq & Hseg).
    assert (Hne : p <> q) by (apply (distinctNeighbours_nth wps i); auto).
    destruct (segmentOf_end p q Hne) as [Hx Hy].
    exists q. split.
    + replace (List.length wps - 1)%nat with (S i); [exact Hq|].
      unfold segs in Hlast, Hi. rewrite getSegments_length in Hlast, Hi. lia.
    + rewrite Hpx, Hpy, Hd, Hseg. split; assumption.
Qed.

Lemma pursuit_point_at_lookahead_witness :
  exists r sc f,
    updatePP_rec 1 (getSegments straightPath) (-100) 0 0 0 =
      Some (0%nat, Normal (Tracking r)) /\
    nth_error (getSegments straightPath) 0 = Some sc /\
    f = Rmax 0 (projection sc (-100) 0) /\
    px0 r = Segment.x1 sc + f * Segment.dx sc.
Proof.
  destruct (straight_run 0) as (r & Hrun & _).
  assert (Hd : distinctNeighbours straightPath).
  { split; [|exact I]. intros E. injection E. lra. }
  destruct (pursuit_point_at_lookahead straightPath 1 (-100) 0 0 0 0 r
              Hd Hrun) as (sc & f & Hsc & Hf & _ & Hpx0 & _).
  exists r, sc, f. auto.
Defined.

(** ** Further concrete runs *)

Lemma getSegments_foldedPath : getSegments foldedPath = foldedSegments.
Proof.
  unfold foldedPath, foldedSegments. cbn [getSegments]. unfold segmentOf.
  cbn [Waypoint.x Waypoint.y].
  replace (100 - 0) with 100 by ring. replace (0 - 100) with (-100) by ring.
  replace (0 - 0) with 0 by ring.
  rewrite hypot_horizontal by lra. rewrite hypot_horizontal_neg by lra.
  rewrite atan2_positive_axis by lra.
  replace (- -100) with 100 by ring.
  replace (100 / 100) with 1 by field. replace (0 / 100) with 0 by field.
  replace (-100 / 100) with (-1) by field.
  assert (Ha : Math.atan2 0 (-100) = PI).
  { unfold Math.atan2. decide_Rlt.
    replace (0 / -100) with 0 by field. rewrite atan_0. ring. }
  rewrite Ha. reflexivity.
Qed.

(** After the skip, the second activation on the folded path returns
    steering data from segment [1]. *)
Lemma folded_run_second h :
  exists r,
    activation foldedSegments 50 0 h 1 = Return 1 (Normal (Tracking r)).
Proof.
  unfold activation, foldedSegments. cbn [skipn closestLoop].
  unfold projection. seg_fields. decide_Rlt.
  unfold pursuitSearch. seg_fields. cbn [skipn pursuitLoop]. seg_fields.
  unfold PURSUIT_DIST. decide_Rlt.
  cbn [Nat.eqb List.length Nat.pred]. seg_fields.
  match goal with
  | |- context [Math.hypot ?a ?b] =>
      replace a with (-50) by field; replace b with 0 by field
  end.
  rewrite hypot_horizontal_neg by lra.
  unfold ltb, SKIP_DIST. decide_Rlt. cbn [andb].
  destruct (clampRadius _ _) as [ri bad].
  eexists. reflexivity.
Qed.

Lemma folded_run h :
  exists r,
    updatePP_rec 2 foldedSegments 50 0 h 0 =
      Some (1%nat, Normal (Tracking r)).
Proof.
  destruct (folded_run_second h) as [r Hr]. exists r.
  cbn [updatePP_rec]. now rewrite folded_run_retries, Hr.
Qed.



Lemma curSeg_never_decreases_witness :
  exists r,
    updatePP_rec 2 foldedSegments 50 0 0 0 =
      Some (1%nat, Normal (Tracking r)) /\
    (0 <= 1)%nat.
Proof.
  destruct (folded_run 0) as [r Hr]. exists r. split; [exact Hr|].
  exact (proj1 curSeg_never_decreases _ _ _ _ _ _ _ _ Hr).
Defined.

Lemma updatePP_terminates_witness :
  (exists curSeg' c d seg,
      closestLoop (skipn 0 foldedSegments) 50 0 0 = (curSeg', Some c) /\
      pursuitSearch foldedSegments curSeg' c = (1%nat, d, seg) /\
      Math.hypot (Segment.x1 seg + d * Segment.ndx seg - 50)
                 (Segment.y1 seg + d * Segment.ndy seg - 0) < SKIP_DIST /\
      (0 <= curSeg')%nat /\ (curSeg' < 1)%nat /\
      (1 < List.length foldedSegments)%nat) /\
  (exists res, updatePP_rec 2 foldedSegments 50 0 0 0 = Some res).
Proof.
  destruct (updatePP_terminates foldedSegments 50 0 0 0)
    as [Hskip (res & Hres & _)].
  split.
  - exact (Hskip 1%nat (folded_run_retries 0)).
  - exists res. exact Hres.
Defined.

(** * Further properties of the code *)

(** ** What the controller returns *)

Lemma sign_bounded a : Rabs (Math.sign a) <= 1.
Proof.
  unfold Math.sign.
  destruct (Rlt_dec 0 a); [rewrite Rabs_R1; lra|].
  destruct (Rlt_dec a 0); [|rewrite Rabs_R0; lra].
  unfold Rabs. destruct (Rcase_abs (-1)); lra.
Qed.

Lemma clampRadius_bounded a ri ri' bad :
  (ri', bad) = clampRadius a ri -> Rabs ri' <= 1 / MIN_TURN_RADIUS.
Proof.
  unfold clampRadius. destruct (clampTest a ri) eqn:Htest; intros H;
    injection H as -> ->.
  - unfold Rdiv. rewrite Rmult_1_r, Rmult_1_l, Rabs_mult.
    pose proof (sign_bounded ri) as Hs.
    assert (Hm : Rabs (/ MIN_TURN_RADIUS) = / MIN_TURN_RADIUS).
    { apply Rabs_pos_eq. left. apply Rinv_0_lt_compat.
      unfold MIN_TURN_RADIUS. lra. }
    rewrite Hm.
    assert (0 < / MIN_TURN_RADIUS).
    { apply Rinv_0_lt_compat. unfold MIN_TURN_RADIUS. lra. }
    pose proof (Rabs_pos (Math.sign ri)). nra.
  - apply Rnot_gt_le. intros Hgt.
    assert (clampTest a ri = true) by (apply clampTest_true_iff; now right).
    congruence.
Qed.

(** The curvature a tick returns respects the minimum turn radius. *)
Lemma tracking_radius_bounded depth segs rX rY rD cs cs' r :
  updatePP_rec depth segs rX rY rD cs = Some (cs', Normal (Tracking r)) ->
  Rabs (radiusInv r) <= 1 / MIN_TURN_RADIUS.
Proof.
  intros H. apply updatePP_rec_Tracking in H.
  now apply clampRadius_bounded in H.
Qed.

(** ** The motion of the robot in a frame *)

Lemma hypot_scaled_direction k t :
  Math.hypot (k * cos t) (k * sin t) = Rabs k.
Proof.
  unfold Math.hypot.
  replace (k * cos t * (k * cos t) + k * sin t * (k * sin t))
    with (Rsqr k * (Rsqr (sin t) + Rsqr (cos t))) by (unfold Rsqr; ring).
  rewrite sin2_cos2, Rmult_1_r. apply sqrt_Rsqr_abs.
Qed.

(** What [moveRobot] assigns: the heading first, then the position along
    the new heading, one step of length [ROBOT_SPEED * |dt|]. *)
Lemma moveRobot_fields (dt ri : R) (g : Globals) (x y d : R) :
  robotX g = Some x -> robotY g = Some y -> robotDir g = Some d ->
  let g' := moveRobot dt ri g in
  let d' := d + ROBOT_SPEED * dt * ri in
  robotDir g' = Some d' /\
  robotX g' = Some (x + ROBOT_SPEED * dt * cos d') /\
  robotY g' = Some (y + ROBOT_SPEED * dt * sin d') /\
  Math.hypot (x + ROBOT_SPEED * dt * cos d' - x)
             (y + ROBOT_SPEED * dt * sin d' - y) = ROBOT_SPEED * Rabs dt /\
  curSeg g' = curSeg g /\ segments g' = segments g /\
  waypoints g' = waypoints g /\ ppRunning g' = ppRunning g /\
  lastFrame g' = lastFrame g.
Proof.
  intros Hx Hy Hd g' d'. unfold g', moveRobot. rewrite Hx, Hy, Hd.
  cbn. repeat split.
  replace (x + ROBOT_SPEED * dt * cos d' - x)
    with (ROBOT_SPEED * dt * cos d') by ring.
  replace (y + ROBOT_SPEED * dt * sin d' - y)
    with (ROBOT_SPEED * dt * sin d') by ring.
  rewrite hypot_scaled_direction, Rabs_mult.
  f_equal. apply Rabs_pos_eq. unfold ROBOT_SPEED. lra.
Qed.

(** A frame that gets steering data turns the robot, then moves it. *)
Lemma ppFrame_tracking_step t last x y d g g1 r :
  lastFrame g = Some last ->
  robotX g = Some x -> robotY g = Some y -> robotDir g = Some d ->
  updatePP (set_lastFrame t g) = (g1, Normal (Tracking r)) ->
  let dt := (t - last) / 1000 in
  let d' := d + ROBOT_SPEED * dt * radiusInv r in
  let x' := x + ROBOT_SPEED * dt * cos d' in
  let y' := y + ROBOT_SPEED * dt * sin d' in
  ppFrame t g = (moveRobot dt (radiusInv r) g1, Normal tt) /\
  robotDir (moveRobot dt (radiusInv r) g1) = Some d' /\
  robotX (moveRobot dt (radiusInv r) g1) = Some x' /\
  robotY (moveRobot dt (radiusInv r) g1) = Some y' /\
  Math.hypot (x' - x) (y' - y) = ROBOT_SPEED * Rabs dt /\
  lastFrame (moveRobot dt (radiusInv r) g1) = Some t /\
  Rabs (radiusInv r) <= 1 / MIN_TURN_RADIUS.
Proof.
  intros Hl Hx Hy Hd Hup dt d' x' y'.
  destruct (updatePP_preserves _ _ _ Hup) as (_ & _ & Hx1 & Hy1 & Hd1 & Hl1).
  cbn in Hx1, Hy1, Hd1, Hl1. rewrite Hx in Hx1. rewrite Hy in Hy1.
  rewrite Hd in Hd1.
  destruct (moveRobot_fields dt (radiusInv r) g1 x y d Hx1 Hy1 Hd1)
    as (Md & Mx & My & Mh & Mc & _ & _ & Mr & Ml).
  unfold ppFrame. rewrite Hl, Hup. fold dt.
  split; [reflexivity|]. split; [exact Md|]. split; [exact Mx|].
  split; [exact My|]. split; [exact Mh|]. split; [congruence|].
  destruct (updatePP_Tracking_inv _ _ _ Hup)
    as (segs & cs & rX & rY & rD & cs' & _ & _ & _ & _ & _ & Hrec & _).
  exact (tracking_radius_bounded _ _ _ _ _ _ _ _ Hrec).
Qed.

Lemma behindTheStart_tracking t :
  exists r,
    updatePP (set_lastFrame t behindTheStart) =
      (set_curSeg 0 (set_lastFrame t behindTheStart), Normal (Tracking r)).
Proof.
  destruct (straight_run_activation 0) as (r & Hact & _). exists r.
  unfold updatePP, behindTheStart.
  cbn [segments curSeg robotX robotY robotDir set_lastFrame
       List.length updatePP_rec].
  now rewrite Hact.
Qed.

(** ** Angles *)

(** [Math.atan2] returns an angle of [(-PI, PI]]. *)
Lemma atan2_range a b : - PI < Math.atan2 a b <= PI.
Proof.
  pose proof PI_RGT_0 as Hpi. pose proof (atan_bound (a / b)) as [Hl Hu].
  unfold Math.atan2.
  destruct (Rlt_dec 0 b) as [Hb|Hb]; [lra|].
  destruct (Rlt_dec b 0) as [Hb'|Hb'].
  - assert (Hinv : / b < 0) by now apply Rinv_lt_0_compat.
    destruct (Rlt_dec a 0) as [Ha|Ha].
    + assert (0 < a / b) by (unfold Rdiv; nra).
      pose proof (atan_increasing 0 (a / b) H) as Hinc.
      rewrite atan_0 in Hinc. lra.
    + assert (a / b <= 0) by (unfold Rdiv; nra).
      destruct H as [H|H].
      * pose proof (atan_increasing (a / b) 0 H) as Hinc.
        rewrite atan_0 in Hinc. lra.
      * rewrite H, atan_0. lra.
  - destruct (Rlt_dec 0 a); [lra|]. destruct (Rlt_dec a 0); lra.
Qed.

Lemma getSegments_angle_range wps i s :
  nth_error (getSegments wps) i = Some s ->
  - PI < Segment.angle s <= PI.
Proof.
  intros Hs. apply getSegments_nth_inv in Hs.
  destruct Hs as (p & q & _ & _ & ->). apply atan2_range.
Qed.

Lemma cos_period_Z x (k : Z) : cos (x + 2 * IZR k * PI) = cos x.
Proof.
  rewrite <- !sin_shift.
  replace (PI / 2 - (x + 2 * IZR k * PI))
    with (PI / 2 - x + 2 * IZR (- k) * PI) by (rewrite opp_IZR; ring).
  apply sin_period_Z.
Qed.

(** An angle of [[-PI, PI]] in degrees. *)
Lemma degrees_range j : - PI <= j <= PI -> -180 <= j * 180 / PI <= 180.
Proof.
  intros [Hl Hu]. pose proof PI_RGT_0 as Hpi.
  assert (Hinv : 0 < / PI) by now apply Rinv_0_lt_compat.
  assert (E : j * 180 / PI = 180 * (j * / PI)) by (unfold Rdiv; ring).
  assert (H1 : j * / PI <= 1).
  { apply Rmult_le_reg_r with PI; [exact Hpi|].
    rewrite Rmult_assoc, Rinv_l by lra. lra. }
  assert (H2 : -1 <= j * / PI).
  { apply Rmult_le_reg_r with PI; [exact Hpi|].
    rewrite Rmult_assoc, Rinv_l by lra. lra. }
  rewrite E. lra.
Qed.

Lemma jointAngle_cases s1 s2 :
  let a := Segment.angle s2 - Segment.angle s1 in
  (PI < a /\ jointAngle s1 s2 = a - 2 * PI) \/
  (a < - PI /\ jointAngle s1 s2 = a + 2 * PI) \/
  (- PI <= a <= PI /\ jointAngle s1 s2 = a).
Proof.
  pose proof PI_RGT_0 as Hpi. intros a. unfold jointAngle. fold a.
  destruct (Rgt_dec a PI) as [H1|H1].
  - left. split; [lra|].
    destruct (Rlt_dec (a - 2 * PI) (- PI)); [lra|reflexivity].
  - right. destruct (Rlt_dec a (- PI)) as [H2|H2].
    + left. split; [lra|reflexivity].
    + right. split; [lra|reflexivity].
Qed.

(** X5.  The turn that [jointAngle] gives between two consecutive segments
    of a path lies between [-PI] and [PI], differs from the difference of
    their angles by at most one whole turn, and has the same sine and
    cosine; in degrees, as [printCommands] prints it, it lies between
    [-180] and [180]. *)
Theorem jointAngle_between_segments (wps : list Waypoint.t) (i : nat)
        (s1 s2 : Segment.t) :
  nth_error (getSegments wps) i = Some s1 ->
  nth_error (getSegments wps) (S i) = Some s2 ->
  - PI <= jointAngle s1 s2 <= PI /\
  (exists k : Z,
      (-1 <= k <= 1)%Z /\
      jointAngle s1 s2 =
        Segment.angle s2 - Segment.angle s1 + 2 * IZR k * PI) /\
  sin (jointAngle s1 s2) = sin (Segment.angle s2 - Segment.angle s1) /\
  cos (jointAngle s1 s2) = cos (Segment.angle s2 - Segment.angle s1) /\
  -180 <= jointAngle s1 s2 * 180 / PI <= 180.
Proof.
  intros H1 H2. pose proof PI_RGT_0 as Hpi.
  pose proof (getSegments_angle_range _ _ _ H1) as R1.
  pose proof (getSegments_angle_range _ _ _ H2) as R2.
  assert (Hk : exists k : Z,
             (-1 <= k <= 1)%Z /\
             jointAngle s1 s2 =
               Segment.angle s2 - Segment.angle s1 + 2 * IZR k * PI /\
             - PI <= jointAngle s1 s2 <= PI).
  { destruct (jointAngle_cases s1 s2) as [[Ha ->]|[[Ha ->]|[Ha ->]]].
    - exists (-1)%Z. split; [lia|]. split; [simpl; ring|lra].
    - exists 1%Z. split; [lia|]. split; [simpl; ring|lra].
    - exists 0%Z. split; [lia|]. split; [simpl; ring|lra]. }
  destruct Hk as (k & Hk & Heq & Hrange).
  split; [exact Hrange|]. split; [exists k; auto|].
  split; [rewrite Heq; apply sin_period_Z|].
  split; [rewrite Heq; apply cos_period_Z|].
  now apply degrees_range.
Qed.

(** X6.  [jointAngle] is antisymmetric: the turn from [s2] to [s1] is the
    opposite of the turn from [s1] to [s2], for any two segments. *)
Theorem jointAngle_antisymmetric (s1 s2 : Segment.t) :
  jointAngle s2 s1 = - jointAngle s1 s2.
Proof.
  pose proof PI_RGT_0 as Hpi.
  destruct (jointAngle_cases s1 s2) as [[Ha ->]|[[Ha ->]|[Ha ->]]];
    destruct (jointAngle_cases s2 s1) as [[Hb ->]|[[Hb ->]|[Hb ->]]]; lra.
Qed.

(** ** [normalizeAngle] *)

Lemma whole_turns_zero (x y : R) (m : Z) :
  0 <= x < 2 * PI -> 0 <= y < 2 * PI -> x = y + 2 * IZR m * PI -> x = y.
Proof.
  intros Hx Hy E. pose proof PI_RGT_0 as Hpi.
  assert (Hm : (-1 < m < 1)%Z).
  { split; apply lt_IZR; simpl.
    - apply Rmult_lt_reg_r with (2 * PI); [lra|]. lra.
    - apply Rmult_lt_reg_r with (2 * PI); [lra|]. lra. }
  assert (m = 0%Z) by lia. subst m. simpl in E. lra.
Qed.

(** X7.  [normalizeAngle] returns the representative of its argument in
    [[0, 2*PI)]: the result is in that range, differs from the argument by
    a whole number of turns, is left unchanged by a second call, is the
    same for two angles a whole number of turns apart, and has the sine
    and cosine of the argument. *)
Theorem normalizeAngle_canonical (a : R) :
  0 <= normalizeAngle a < 2 * PI /\
  (exists k : Z, normalizeAngle a = a + 2 * IZR k * PI) /\
  normalizeAngle (normalizeAngle a) = normalizeAngle a /\
  (forall k : Z, normalizeAngle (a + 2 * IZR k * PI) = normalizeAngle a) /\
  sin (normalizeAngle a) = sin a /\ cos (normalizeAngle a) = cos a.
Proof.
  destruct (normalizeAngle_spec a) as [[k Hk] Hr].
  split; [exact Hr|]. split; [exists k; exact Hk|].
  split; [now apply normalizeAngle_small|]. split.
  - intros m.
    destruct (normalizeAngle_spec (a + 2 * IZR m * PI)) as [[k' Hk'] Hr'].
    apply (whole_turns_zero _ _ (k' + m - k)%Z Hr' Hr).
    rewrite Hk', Hk, minus_IZR, plus_IZR. ring.
  - rewrite Hk. split; [apply sin_period_Z|apply cos_period_Z].
Qed.

(** ** The polyline of [getSegments] *)

(** X8.  The segments of [getSegments] form a connected polyline: each
    segment ends where the next one starts, the first starts at the first
    waypoint and the last ends at the last waypoint. *)
Theorem getSegments_connected (wps : list Waypoint.t) :
  (forall i s1 s2,
      nth_error (getSegments wps) i = Some s1 ->
      nth_error (getSegments wps) (S i) = Some s2 ->
      Segment.x2 s1 = Segment.x1 s2 /\ Segment.y2 s1 = Segment.y1 s2) /\
  (forall s w, nth_error (getSegments wps) 0 = Some s ->
               nth_error wps 0 = Some w ->
               Segment.x1 s = Waypoint.x w /\ Segment.y1 s = Waypoint.y w) /\
  (forall s w, nth_error (getSegments wps)
                         (List.length (getSegments wps) - 1) = Some s ->
               nth_error wps (List.length wps - 1) = Some w ->
               Segment.x2 s = Waypoint.x w /\ Segment.y2 s = Waypoint.y w).
Proof.
  split; [|split].
  - intros i s1 s2 H1 H2.
    apply getSegments_nth_inv in H1. destruct H1 as (p & q & _ & Hq & ->).
    apply getSegments_nth_inv in H2. destruct H2 as (p' & q' & Hp' & _ & ->).
    rewrite Hq in Hp'. injection Hp' as <-. split; reflexivity.
  - intros s w Hs Hw.
    apply getSegments_nth_inv in Hs. destruct Hs as (p & q & Hp & _ & ->).
    rewrite Hw in Hp. injection Hp as <-. split; reflexivity.
  - intros s w Hs Hw.
    assert (Hlt : (List.length (getSegments wps) - 1
                   < List.length (getSegments wps))%nat).
    { apply nth_error_Some. congruence. }
    apply getSegments_nth_inv in Hs. destruct Hs as (p & q & _ & Hq & ->).
    rewrite getSegments_length in Hq, Hlt.
    replace (S (List.length wps - 1 - 1)) with (List.length wps - 1)%nat
      in Hq by lia.
    rewrite Hw in Hq. injection Hq as <-. split; reflexivity.
Qed.

Lemma segmentOf_unit p q :
  p <> q ->
  Segment.ndx (segmentOf p q) * Segment.ndx (segmentOf p q) +
  Segment.ndy (segmentOf p q) * Segment.ndy (segmentOf p q) = 1.
Proof.
  intros Hne. pose proof (segmentOf_length_pos p q Hne) as Hpos.
  simpl in *.
  set (dx := Waypoint.x q - Waypoint.x p) in *.
  set (dy := Waypoint.y q - Waypoint.y p) in *.
  assert (Hsq : Math.hypot dx dy * Math.hypot dx dy = dx * dx + dy * dy).
  { unfold Math.hypot. apply sqrt_sqrt. nra. }
  set (len := Math.hypot dx dy) in *.
  replace (dx / len * (dx / len) + dy / len * (dy / len))
    with ((dx * dx + dy * dy) / (len * len)) by (field; lra).
  rewrite <- Hsq. field. lra.
Qed.

Lemma getSegments_distinct_inv wps i s :
  distinctNeighbours wps ->
  nth_error (getSegments wps) i = Some s ->
  exists p q, p <> q /\ s = segmentOf p q.
Proof.
  intros Hd Hs. apply getSegments_nth_inv in Hs.
  destruct Hs as (p & q & Hp & Hq & ->).
  exists p, q. split; [|reflexivity].
  now apply (distinctNeighbours_nth wps i).
Qed.

(** X9.  On a path without coincident consecutive waypoints every segment
    has a positive length and a unit direction [(ndx, ndy)], its delta is
    its length times that direction, and its end is its start moved by its
    length along it. *)
Theorem getSegments_unit_directions (wps : list Waypoint.t) (i : nat)
        (s : Segment.t) :
  distinctNeighbours wps ->
  nth_error (getSegments wps) i = Some s ->
  0 < Segment.length s /\
  Segment.ndx s * Segment.ndx s + Segment.ndy s * Segment.ndy s = 1 /\
  Segment.dx s = Segment.length s * Segment.ndx s /\
  Segment.dy s = Segment.length s * Segment.ndy s /\
  Segment.x2 s = Segment.x1 s + Segment.length s * Segment.ndx s /\
  Segment.y2 s = Segment.y1 s + Segment.length s * Segment.ndy s.
Proof.
  intros Hd Hs.
  destruct (getSegments_distinct_inv _ _ _ Hd Hs) as (p & q & Hne & ->).
  pose proof (segmentOf_length_pos p q Hne) as Hpos.
  destruct (segmentOf_end p q Hne) as [Hx Hy].
  split; [exact Hpos|]. split; [now apply segmentOf_unit|].
  simpl in *. repeat split; try (field; lra); lra.
Qed.

Lemma getSegments_snoc l : forall d w,
  l <> [] ->
  getSegments (l ++ [w]) = getSegments l ++ [segmentOf (last l d) w].
Proof.
  induction l as [|a [|b l] IH]; intros d w Hne.
  - congruence.
  - reflexivity.
  - change (segmentOf a b :: getSegments ((b :: l) ++ [w]) =
            segmentOf a b :: (getSegments (b :: l) ++
                              [segmentOf (last (b :: l) d) w])).
    f_equal. apply IH. discriminate.
Qed.

(** X10.  [addWaypoint] appends the waypoint: the path gains the segment
    from its former last waypoint to the new one (none when it was empty)
    and keeps the others, while [segments] and the state of a run in
    progress are left as they are. *)
Theorem addWaypoint_extends_path (x y : R) (g : Globals) :
  waypoints (addWaypoint x y g) = waypoints g ++ [Waypoint.mk x y] /\
  (waypoints g = [] -> getSegments (waypoints (addWaypoint x y g)) = []) /\
  (forall d, waypoints g <> [] ->
     getSegments (waypoints (addWaypoint x y g)) =
       getSegments (waypoints g) ++
       [segmentOf (last (waypoints g) d) (Waypoint.mk x y)]) /\
  segments (addWaypoint x y g) = segments g /\
  curSeg (addWaypoint x y g) = curSeg g /\
  robotX (addWaypoint x y g) = robotX g /\
  robotY (addWaypoint x y g) = robotY g /\
  robotDir (addWaypoint x y g) = robotDir g /\
  ppRunning (addWaypoint x y g) = ppRunning g.
Proof.
  split; [reflexivity|]. split.
  - intros E. cbn. now rewrite E.
  - split; [|repeat split].
    intros d Hne. cbn. now apply getSegments_snoc.
Qed.

(** ** A run never reads outside its arrays *)

Lemma updatePP_rec_last_bounded depth segs rX rY rD :
  forall cs cs' r,
    (cs <= List.length segs)%nat ->
    updatePP_rec depth segs rX rY rD cs = Some (cs', r) ->
    exists k, (cs <= k <= List.length segs)%nat /\
              activation segs rX rY rD k = Return cs' r.
Proof.
  induction depth as [|depth IH]; intros cs cs' r Hcs H; simpl in H;
    [discriminate|].
  destruct (activation segs rX rY rD cs) as [c1 r1|i] eqn:Hact.
  - injection H as <- <-. exists cs. split; [lia|assumption].
  - apply activation_Retry_lt in Hact.
    apply IH in H; [|lia]. destruct H as (k & Hk & Hret).
    exists k. split; [lia|assumption].
Qed.

(** Started with [curSeg] within the segments, [updatePP] does not throw,
    leaves [curSeg] within the segments, and returns [done] exactly when
    it leaves [curSeg] at their number. *)
Lemma updatePP_rec_in_range depth segs rX rY rD cs cs' r :
  (cs <= List.length segs)%nat ->
  updatePP_rec depth segs rX rY rD cs = Some (cs', r) ->
  (cs' <= List.length segs)%nat /\
  (exists st, r = Normal st) /\
  (r = Normal Done <-> cs' = List.length segs).
Proof.
  intros Hcs H.
  destruct (updatePP_rec_last_bounded _ _ _ _ _ _ _ _ Hcs H)
    as (k & Hk & Hact).
  pose proof (activation_inv segs rX rY rD k) as A. rewrite Hact in A.
  destruct r as [[|res]|].
  - destruct A as (_ & -> & _). split; [lia|]. split; [eauto|tauto].
  - destruct A as (c & i & d & seg & _ & _ & Hlt & _).
    split; [lia|]. split; [eauto|]. split; [discriminate|lia].
  - lia.
Qed.

Lemma updatePP_runState g :
  runState g ->
  exists g' st segs cs',
    updatePP g = (g', Normal st) /\ runState g' /\
    segments g = Some segs /\ curSeg g' = Some cs' /\
    (st = Done <-> cs' = List.length segs) /\
    ppRunning g' = match st with Done => false | Tracking _ => ppRunning g end.
Proof.
  intros (segs & cs & rX & rY & rD & last & Hs & Hc & Hle & Hx & Hy & Hd & Hl).
  destruct (updatePP_assigned g segs cs rX rY rD Hs Hc Hx Hy Hd)
    as (cs' & r & Hrec & Hup).
  destruct (updatePP_rec_in_range _ _ _ _ _ _ _ _ Hle Hrec)
    as (Hle' & [st ->] & Hdone).
  exists (match st with
          | Done => stopPP (set_curSeg cs' g)
          | Tracking _ => set_curSeg cs' g
          end), st, segs, cs'.
  split; [rewrite Hup; destruct st; reflexivity|].
  split.
  { exists segs, cs', rX, rY, rD, last. destruct st; cbn; auto 10. }
  split; [exact Hs|]. split; [destruct st; reflexivity|]. split.
  - rewrite <- Hdone. split; [now intros ->|]. intros E. now injection E.
  - destruct st; reflexivity.
Qed.

Lemma moveRobot_runState dt ri g : runState g -> runState (moveRobot dt ri g).
Proof.
  intros (segs & cs & rX & rY & rD & last & Hs & Hc & Hle & Hx & Hy & Hd & Hl).
  unfold moveRobot. rewrite Hx, Hy, Hd.
  eexists segs, cs, _, _, _, last. cbn. auto 10.
Qed.

Lemma ppFrame_runState t g :
  runState g ->
  exists g', ppFrame t g = (g', Normal tt) /\ runState g' /\
             segments g' = segments g /\ waypoints g' = waypoints g.
Proof.
  intros Hrun.
  assert (Hrun' : runState (set_lastFrame t g)).
  { destruct Hrun as (segs & cs & rX & rY & rD & last & H).
    exists segs, cs, rX, rY, rD, t. cbn. tauto. }
  destruct Hrun as (segs & cs & rX & rY & rD & last & Hs & Hc & Hle & Hx & Hy
                    & Hd & Hl).
  destruct (updatePP_runState _ Hrun')
    as (g1 & st & segs1 & cs1 & Hup & Hrun1 & _).
  destruct (updatePP_preserves _ _ _ Hup) as (Hw & Hsg & _).
  unfold ppFrame. rewrite Hl, Hup. destruct st as [|r].
  - exists g1. auto.
  - exists (moveRobot
              ((t - last) / 1000) (radiusInv r) g1).
    split; [reflexivity|]. split; [now apply moveRobot_runState|].
    unfold moveRobot.
    destruct (robotX g1), (robotY g1), (robotDir g1); cbn; auto.
Qed.

Lemma frames_runState clock : forall g, runState g -> runState (frames clock g).
Proof.
  induction clock as [|t clock IH]; intros g Hrun; simpl; [exact Hrun|].
  destruct (ppRunning g); [|exact Hrun].
  destruct (ppFrame_runState t g Hrun) as (g' & -> & Hrun' & _).
  now apply IH.
Qed.

(** X11.  Once [curSeg] is within [0 .. segments.length] and the variables
    of the run are assigned, no frame throws: every [ppFrame] returns
    normally and keeps that state and the segments, for any number of
    frames and any clock readings. *)
Theorem run_never_throws (g : Globals) :
  runState g ->
  (forall t, exists g', ppFrame t g = (g', Normal tt) /\ runState g' /\
                        segments g' = segments g) /\
  (forall clock, runState (frames clock g)) /\
  (forall clock t, snd (ppFrame t (frames clock g)) = Normal tt).
Proof.
  intros Hrun. split; [|split].
  - intros t. destruct (ppFrame_runState t g Hrun) as (g' & H & H' & Hs & _).
    exists g'. auto.
  - intros clock. now apply frames_runState.
  - intros clock t.
    destruct (ppFrame_runState t _ (frames_runState clock g Hrun))
      as (g' & -> & _). reflexivity.
Qed.

(** X12.  In such a state [updatePP] returns [done] exactly when it
    leaves [curSeg] equal to [segments.length], and otherwise leaves it
    below; [ppRunning] is false afterwards exactly when [done] was
    returned or it was false before; the path, the segments, the pose and
    the clock are untouched. *)
Theorem updatePP_done_exactly_at_end (g : Globals) :
  runState g ->
  exists g' st segs cs',
    updatePP g = (g', Normal st) /\
    segments g = Some segs /\ curSeg g' = Some cs' /\
    (cs' <= List.length segs)%nat /\
    (st = Done <-> cs' = List.length segs) /\
    (ppRunning g' = false <-> st = Done \/ ppRunning g = false) /\
    waypoints g' = waypoints g /\ segments g' = segments g /\
    robotX g' = robotX g /\ robotY g' = robotY g /\
    robotDir g' = robotDir g /\ lastFrame g' = lastFrame g.
Proof.
  intros Hrun.
  destruct (updatePP_runState g Hrun)
    as (g' & st & segs & cs' & Hup & Hrun' & Hs & Hc & Hdone & Hpp).
  exists g', st, segs, cs'.
  destruct (updatePP_preserves _ _ _ Hup) as (Hw & Hsg & Hx & Hy & Hd & Hl).
  split; [exact Hup|]. split; [exact Hs|]. split; [exact Hc|]. split.
  { destruct Hrun' as (segs' & cs'' & _ & _ & _ & _ & Hs' & Hc' & Hle & _).
    rewrite Hsg, Hs in Hs'. rewrite Hc in Hc'.
    injection Hs' as <-. injection Hc' as <-. exact Hle. }
  split; [exact Hdone|]. split.
  { rewrite Hpp. destruct st.
    - split; auto.
    - split; [auto|]. intros [H|H]; [discriminate|exact H]. }
  auto 10.
Qed.

(** X13.  [startPP] throws exactly when there are fewer than two
    waypoints.  With two or more it places the robot on the first
    waypoint, heading along the first segment, with [curSeg = 0], and runs
    the first frame, which returns normally; the segments are those of the
    waypoints. *)
Theorem startPP_throws_iff (t0 t1 : R) (g : Globals) :
  (snd (startPP t0 t1 g) = Throws <-> (List.length (waypoints g) < 2)%nat) /\
  ((2 <= List.length (waypoints g))%nat ->
   exists g' w0 s0,
     startPP t0 t1 g = (g', Normal tt) /\
     nth_error (waypoints g) 0 = Some w0 /\
     nth_error (getSegments (waypoints g)) 0 = Some s0 /\
     startPP t0 t1 g =
       ppFrame t1
         (mkGlobals (waypoints g) (Some (getSegments (waypoints g)))
                    (Some 0%nat) (Some (Waypoint.x w0)) (Some (Waypoint.y w0))
                    (Some (Segment.angle s0)) true (Some t0)) /\
     runState g' /\
     waypoints g' = waypoints g /\
     segments g' = Some (getSegments (waypoints g))).
Proof.
  assert (Hok : (2 <= List.length (waypoints g))%nat ->
    exists g' w0 s0,
     startPP t0 t1 g = (g', Normal tt) /\
     nth_error (waypoints g) 0 = Some w0 /\
     nth_error (getSegments (waypoints g)) 0 = Some s0 /\
     startPP t0 t1 g =
       ppFrame t1
         (mkGlobals (waypoints g) (Some (getSegments (waypoints g)))
                    (Some 0%nat) (Some (Waypoint.x w0)) (Some (Waypoint.y w0))
                    (Some (Segment.angle s0)) true (Some t0)) /\
     runState g' /\
     waypoints g' = waypoints g /\
     segments g' = Some (getSegments (waypoints g))).
  { intros Hlen.
    destruct (waypoints g) as [|w0 [|w1 rest]] eqn:Hw; simpl in Hlen;
      [lia|lia|].
    set (g0 := mkGlobals (w0 :: w1 :: rest)
                 (Some (getSegments (w0 :: w1 :: rest)))
                 (Some 0%nat) (Some (Waypoint.x w0)) (Some (Waypoint.y w0))
                 (Some (Segment.angle (segmentOf w0 w1))) true (Some t0)).
    assert (Hrun : runState g0).
    { eexists _, 0%nat, _, _, _, _. cbn. repeat split. lia. }
    destruct (ppFrame_runState t1 g0 Hrun) as (g' & Hf & Hrun' & Hs & Hw').
    assert (Hstart : startPP t0 t1 g = ppFrame t1 g0).
    { unfold startPP, set_ppRunning, set_lastFrame, set_curSeg, set_robotDir,
        set_robotY, set_robotX, set_segments.
      cbn [waypoints segments curSeg robotX robotY robotDir ppRunning
           lastFrame].
      rewrite Hw. reflexivity. }
    exists g', w0, (segmentOf w0 w1).
    split; [congruence|]. split; [reflexivity|]. split; [reflexivity|].
    split; [exact Hstart|]. split; [exact Hrun'|].
    split; [exact Hw'|exact Hs]. }
  split; [|exact Hok]. split.
  - intros Hthrow.
    destruct (Nat.lt_ge_cases (List.length (waypoints g)) 2) as [H|H];
      [exact H|].
    destruct (Hok H) as (g' & w0 & s0 & Hs & _). rewrite Hs in Hthrow.
    discriminate.
  - intros Hlen.
    unfold startPP. cbn [waypoints set_segments].
    destruct (waypoints g) as [|w0 [|w1 rest]]; simpl in Hlen;
      [reflexivity|reflexivity|lia].
Qed.

(** ** Driving along a segment *)

Lemma atan2_scale k a b :
  0 < k -> Math.atan2 (k * a) (k * b) = Math.atan2 a b.
Proof.
  intros Hk. unfold Math.atan2.
  destruct (Rlt_dec 0 b) as [Hb|Hb].
  - destruct (Rlt_dec 0 (k * b)) as [_|H]; [|exfalso; nra].
    f_equal. field. lra.
  - destruct (Rlt_dec 0 (k * b)) as [H|_]; [exfalso; nra|].
    destruct (Rlt_dec b 0) as [Hb'|Hb'].
    + destruct (Rlt_dec (k * b) 0) as [_|H]; [|exfalso; nra].
      replace (k * a / (k * b)) with (a / b) by (field; lra).
      destruct (Rlt_dec a 0) as [Ha|Ha].
      * destruct (Rlt_dec (k * a) 0) as [_|H]; [reflexivity|exfalso; nra].
      * destruct (Rlt_dec (k * a) 0) as [H|_]; [exfalso; nra|reflexivity].
    + destruct (Rlt_dec (k * b) 0) as [H|_]; [exfalso; nra|].
      destruct (Rlt_dec 0 a) as [Ha|Ha].
      * destruct (Rlt_dec 0 (k * a)) as [_|H]; [reflexivity|exfalso; nra].
      * destruct (Rlt_dec 0 (k * a)) as [H|_]; [exfalso; nra|].
        destruct (Rlt_dec a 0) as [Ha'|Ha'].
        -- destruct (Rlt_dec (k * a) 0) as [_|H]; [reflexivity|exfalso; nra].
        -- destruct (Rlt_dec (k * a) 0) as [H|_]; [exfalso; nra|reflexivity].
Qed.

Lemma hypot_unit_scaled k nx ny :
  0 <= k -> nx * nx + ny * ny = 1 -> Math.hypot (k * nx) (k * ny) = k.
Proof.
  intros Hk Hu. unfold Math.hypot.
  replace (k * nx * (k * nx) + k * ny * (k * ny))
    with (k * k * (nx * nx + ny * ny)) by ring.
  rewrite Hu, Rmult_1_r. now apply sqrt_square.
Qed.

Lemma skipn_nth_error {A : Type} (l : list A) : forall n a,
  nth_error l n = Some a -> skipn n l = a :: skipn (S n) l.
Proof.
  induction l as [|b l IH]; intros n a H.
  - destruct n; discriminate.
  - destruct n as [|n]; simpl in H.
    + now injection H as ->.
    + rewrite skipn_cons. now apply IH.
Qed.

(** The robot on a segment, heading along it, with more than
    [PURSUIT_DIST] of the segment ahead: one activation returns a zero
    curvature, unclamped, with the robot as closest point and the pursuit
    point [PURSUIT_DIST] further along the segment. *)
Lemma activation_along_segment segs cs s u rX rY rD :
  nth_error segs cs = Some s ->
  0 < Segment.length s ->
  Segment.ndx s * Segment.ndx s + Segment.ndy s * Segment.ndy s = 1 ->
  Segment.dx s = Segment.length s * Segment.ndx s ->
  Segment.dy s = Segment.length s * Segment.ndy s ->
  Segment.angle s = Math.atan2 (Segment.dy s) (Segment.dx s) ->
  0 <= u -> u + PURSUIT_DIST < Segment.length s ->
  onSegment s u rX rY rD ->
  exists r,
    activation segs rX rY rD cs = Return cs (Normal (Tracking r)) /\
    radiusInv r = 0 /\ badRadius r = false /\
    px0 r = rX /\ py0 r = rY /\
    px r = Segment.x1 s + (u + PURSUIT_DIST) * Segment.ndx s /\
    py r = Segment.y1 s + (u + PURSUIT_DIST) * Segment.ndy s.
Proof.
  intros Hnth Hlen Hunit Hdx Hdy Hang Hu Hroom (HrX & HrY & HrD).
  pose proof PI_RGT_0 as Hpi.
  assert (HP : PURSUIT_DIST = 70) by reflexivity.
  set (len := Segment.length s) in *.
  set (nx := Segment.ndx s) in *. set (ny := Segment.ndy s) in *.
  assert (Hproj : projection s rX rY = u / len).
  { unfold projection. fold nx ny len. rewrite HrX, HrY.
    replace ((Segment.x1 s + u * nx - Segment.x1 s) * nx +
             (Segment.y1 s + u * ny - Segment.y1 s) * ny)
      with (u * (nx * nx + ny * ny)) by ring.
    now rewrite Hunit, Rmult_1_r. }
  assert (Hf0 : 0 <= u / len).
  { apply Rmult_le_pos; [lra|]. left. now apply Rinv_0_lt_compat. }
  assert (Hf1 : u / len < 1).
  { apply Rmult_lt_reg_r with len; [lra|].
    unfold Rdiv. rewrite Rmult_assoc, Rinv_l by lra. lra. }
  assert (Hfl : u / len * len = u) by (field; lra).
  assert (Hcs : (cs < List.length segs)%nat).
  { apply nth_error_Some. congruence. }
  unfold activation. rewrite (skipn_nth_error _ _ _ Hnth).
  cbn [closestLoop]. rewrite Hproj.
  destruct (Rlt_dec (u / len) 1) as [_|H]; [|contradiction].
  destruct (Rlt_dec (u / len) 0) as [H|_]; [lra|].
  unfold pursuitSearch. cbn [c_d c_seg]. fold len.
  rewrite (skipn_nth_error _ _ _ Hnth). cbn [pursuitLoop]. fold len.
  destruct (Rgt_dec (- (u / len) * len + len) PURSUIT_DIST) as [_|H];
    [|exfalso; apply H; lra].
  destruct (Nat.eqb_spec cs (List.length segs)) as [E|_]; [lia|].
  fold nx ny.
  set (pxv := Segment.x1 s + (PURSUIT_DIST - - (u / len) * len) * nx).
  set (pyv := Segment.y1 s + (PURSUIT_DIST - - (u / len) * len) * ny).
  assert (Hpdx : pxv - rX = PURSUIT_DIST * nx).
  { unfold pxv. rewrite HrX.
    replace (- (u / len) * len) with (- u) by lra. ring. }
  assert (Hpdy : pyv - rY = PURSUIT_DIST * ny).
  { unfold pyv. rewrite HrY.
    replace (- (u / len) * len) with (- u) by lra. ring. }
  rewrite Hpdx, Hpdy.
  rewrite (hypot_unit_scaled PURSUIT_DIST nx ny) by (assumption || lra).
  rewrite Nat.eqb_refl, andb_false_r.
  assert (Hbearing : Math.atan2 (PURSUIT_DIST * ny) (PURSUIT_DIST * nx) = rD).
  { rewrite HrD, Hang, Hdx, Hdy. fold len nx ny.
    rewrite !atan2_scale by lra. reflexivity. }
  assert (Hturn : turnAngle (PURSUIT_DIST * nx) (PURSUIT_DIST * ny) rD
                  = PI / 2).
  { unfold turnAngle. rewrite Hbearing. ring. }
  assert (Hraw : rawRadiusInv PURSUIT_DIST (PURSUIT_DIST * nx)
                              (PURSUIT_DIST * ny) rD = 0).
  { unfold rawRadiusInv. rewrite Hturn, cos_PI2. unfold Rdiv. ring. }
  rewrite Hturn, Hraw.
  assert (Hclamp : clampRadius (PI / 2) 0 = (0, false)).
  { unfold clampRadius.
    destruct (clampTest (PI / 2) 0) eqn:Htest; [|reflexivity].
    apply clampTest_true_iff in Htest. destruct Htest as [Ha|Hm].
    - rewrite normalizeAngle_small in Ha; lra.
    - rewrite Rabs_R0 in Hm. unfold MIN_TURN_RADIUS in Hm. lra. }
  rewrite Hclamp. eexists. split; [reflexivity|]. cbn [radiusInv badRadius px0 py0 px py c_px0 c_py0].
  split; [reflexivity|]. split; [reflexivity|].
  rewrite Hdx, Hdy. fold len nx ny. unfold pxv, pyv.
  rewrite HrX, HrY. repeat split; field; lra.
Qed.

Lemma hypot_factor a b :
  b <> 0 -> Math.hypot b a = Rabs b * sqrt (1 + Rsqr (a / b)).
Proof.
  intros Hb. unfold Math.hypot.
  replace (b * b + a * a) with (Rsqr b * (1 + Rsqr (a / b)))
    by (unfold Rsqr; field; exact Hb).
  rewrite sqrt_mult_alt by apply Rle_0_sqr.
  now rewrite sqrt_Rsqr_abs.
Qed.

Lemma sqrt_one_plus_pos x : 0 < sqrt (1 + Rsqr x).
Proof. apply sqrt_lt_R0. pose proof (Rle_0_sqr x). lra. Qed.

(** The cosine and sine of [atan2(a, b)] are [b] and [a] over the length
    of [(b, a)]. *)
Lemma cos_sin_atan2 a b :
  ~ (a = 0 /\ b = 0) ->
  cos (Math.atan2 a b) = b / Math.hypot b a /\
  sin (Math.atan2 a b) = a / Math.hypot b a.
Proof.
  intros Hne. pose proof (sqrt_one_plus_pos (a / b)) as Hs.
  unfold Math.atan2.
  destruct (Rlt_dec 0 b) as [Hb|Hb].
  - rewrite hypot_factor by lra. rewrite Rabs_pos_eq by lra.
    rewrite cos_atan, sin_atan. split; field; lra.
  - destruct (Rlt_dec b 0) as [Hb'|Hb'].
    + rewrite hypot_factor by lra. rewrite Rabs_left by lra.
      destruct (Rlt_dec a 0) as [Ha|Ha].
      * unfold Rminus. rewrite cos_plus, sin_plus, cos_neg, sin_neg.
        rewrite cos_PI, sin_PI, cos_atan, sin_atan. split; field; lra.
      * rewrite neg_cos, neg_sin, cos_atan, sin_atan. split; field; lra.
    + assert (b = 0) by lra. subst b.
      assert (Hh : Math.hypot 0 a = Rabs a).
      { unfold Math.hypot. replace (0 * 0 + a * a) with (Rsqr a)
          by (unfold Rsqr; ring). apply sqrt_Rsqr_abs. }
      rewrite Hh.
      destruct (Rlt_dec 0 a) as [Ha|Ha].
      * rewrite cos_PI2, sin_PI2, Rabs_pos_eq by lra. split; field; lra.
      * destruct (Rlt_dec a 0) as [Ha'|Ha'].
        -- rewrite cos_neg, sin_neg, cos_PI2, sin_PI2, Rabs_left by lra.
           split; field; lra.
        -- exfalso. apply Hne. split; lra.
Qed.

(** The angle of a segment is the direction of its unit vector. *)
Lemma segmentOf_heading p q :
  p <> q ->
  cos (Segment.angle (segmentOf p q)) = Segment.ndx (segmentOf p q) /\
  sin (Segment.angle (segmentOf p q)) = Segment.ndy (segmentOf p q).
Proof.
  intros Hne. pose proof (segmentOf_length_pos p q Hne) as Hpos.
  simpl in *. apply cos_sin_atan2.
  intros [Hy Hx]. rewrite Hx, Hy in Hpos.
  rewrite hypot_horizontal in Hpos; lra.
Qed.

(** What a segment between two distinct waypoints provides. *)
Lemma segment_facts wps i s :
  distinctNeighbours wps ->
  nth_error (getSegments wps) i = Some s ->
  0 < Segment.length s /\
  Segment.ndx s * Segment.ndx s + Segment.ndy s * Segment.ndy s = 1 /\
  Segment.dx s = Segment.length s * Segment.ndx s /\
  Segment.dy s = Segment.length s * Segment.ndy s /\
  Segment.angle s = Math.atan2 (Segment.dy s) (Segment.dx s) /\
  cos (Segment.angle s) = Segment.ndx s /\
  sin (Segment.angle s) = Segment.ndy s.
Proof.
  intros Hd Hs.
  destruct (getSegments_distinct_inv _ _ _ Hd Hs) as (p & q & Hne & ->).
  pose proof (segmentOf_length_pos p q Hne) as Hpos.
  destruct (segmentOf_heading p q Hne) as [Hc Hsn].
  split; [exact Hpos|]. split; [now apply segmentOf_unit|].
  split; [simpl in *; field; lra|]. split; [simpl in *; field; lra|].
  split; [reflexivity|]. split; assumption.
Qed.

(** X14.  On a path without coincident consecutive waypoints, the
    [angle] of a segment is in [(-PI, PI]] and is the direction of its unit
    vector: its cosine is [ndx] and its sine is [ndy]. *)
Theorem getSegments_heading (wps : list Waypoint.t) (i : nat)
        (s : Segment.t) :
  distinctNeighbours wps ->
  nth_error (getSegments wps) i = Some s ->
  - PI < Segment.angle s <= PI /\
  cos (Segment.angle s) = Segment.ndx s /\
  sin (Segment.angle s) = Segment.ndy s.
Proof.
  intros Hd Hs.
  destruct (segment_facts _ _ _ Hd Hs) as (_ & _ & _ & _ & Ha & Hc & Hsn).
  split; [|split; assumption].
  rewrite Ha. apply atan2_range.
Qed.

(** X15.  With the robot on a segment, heading along it, and more than
    [PURSUIT_DIST] of that segment ahead, [updatePP] stays on the segment
    and returns a zero curvature, not clamped; the closest point is the
    robot itself and the pursuit point is [PURSUIT_DIST] further along the
    segment. *)
Theorem tracking_along_segment
        (wps : list Waypoint.t) (cs : nat) (s : Segment.t)
        (u rX rY rD : R) (depth : nat) :
  distinctNeighbours wps ->
  nth_error (getSegments wps) cs = Some s ->
  0 <= u -> u + PURSUIT_DIST < Segment.length s ->
  onSegment s u rX rY rD ->
  (1 <= depth)%nat ->
  exists r,
    updatePP_rec depth (getSegments wps) rX rY rD cs =
      Some (cs, Normal (Tracking r)) /\
    radiusInv r = 0 /\ badRadius r = false /\
    px0 r = rX /\ py0 r = rY /\
    px r = Segment.x1 s + (u + PURSUIT_DIST) * Segment.ndx s /\
    py r = Segment.y1 s + (u + PURSUIT_DIST) * Segment.ndy s.
Proof.
  intros Hd Hs Hu Hroom Hon Hdepth.
  destruct (segment_facts _ _ _ Hd Hs)
    as (Hlen & Hunit & Hdx & Hdy & Hang & _).
  destruct (activation_along_segment (getSegments wps) cs s u rX rY rD
              Hs Hlen Hunit Hdx Hdy Hang Hu Hroom Hon) as (r & Hact & Hr).
  exists r. split; [|exact Hr].
  destruct depth as [|depth]; [lia|]. cbn [updatePP_rec]. now rewrite Hact.
Qed.

(** X16.  In that situation a frame drives the robot straight along the
    segment: the heading is unchanged, the robot is again on the segment,
    [ROBOT_SPEED * dt] further along, and [curSeg] and [ppRunning] are
    unchanged. *)
Theorem frame_along_segment
        (wps : list Waypoint.t) (g : Globals) (cs : nat) (s : Segment.t)
        (u rX rY rD last t : R) :
  distinctNeighbours wps ->
  segments g = Some (getSegments wps) -> curSeg g = Some cs ->
  nth_error (getSegments wps) cs = Some s ->
  robotX g = Some rX -> robotY g = Some rY -> robotDir g = Some rD ->
  lastFrame g = Some last ->
  0 <= u -> u + PURSUIT_DIST < Segment.length s ->
  onSegment s u rX rY rD ->
  let u' := u + ROBOT_SPEED * ((t - last) / 1000) in
  exists g' rX' rY',
    ppFrame t g = (g', Normal tt) /\
    robotX g' = Some rX' /\ robotY g' = Some rY' /\
    robotDir g' = Some rD /\
    onSegment s u' rX' rY' rD /\
    curSeg g' = Some cs /\ ppRunning g' = ppRunning g.
Proof.
  intros Hd Hsg Hc Hs Hx Hy Hdir Hl Hu Hroom Hon u'.
  destruct (segment_facts _ _ _ Hd Hs)
    as (Hlen & Hunit & Hdx & Hdy & Hang & Hcos & Hsin).
  destruct (activation_along_segment (getSegments wps) cs s u rX rY rD
              Hs Hlen Hunit Hdx Hdy Hang Hu Hroom Hon)
    as (r & Hact & Hri & _).
  assert (Hup : updatePP (set_lastFrame t g) =
                (set_curSeg cs (set_lastFrame t g), Normal (Tracking r))).
  { unfold updatePP.
    cbn [segments curSeg robotX robotY robotDir set_lastFrame].
    rewrite Hsg, Hc, Hx, Hy, Hdir. cbn [updatePP_rec]. now rewrite Hact. }
  destruct (ppFrame_tracking_step t last rX rY rD g _ r Hl Hx Hy Hdir Hup)
    as (Hf & Md & Mx & My & _).
  rewrite Hri in *.
  replace (rD + ROBOT_SPEED * ((t - last) / 1000) * 0) with rD in *
    by ring.
  eexists _, _, _. split; [exact Hf|]. split; [exact Mx|].
  split; [exact My|]. split; [exact Md|]. split.
  - destruct Hon as (HrX & HrY & HrD).
    unfold onSegment, u'. rewrite HrD in *. rewrite Hcos, Hsin, HrX, HrY.
    repeat split; ring.
  - split.
    + rewrite moveRobot_curSeg. reflexivity.
    + unfold moveRobot. cbn [robotX robotY robotDir set_curSeg set_lastFrame].
      rewrite Hx, Hy, Hdir. reflexivity.
Qed.

(** ** The commands printed for a path *)

Section ConsoleFacts.

Variable toFixed0 : R -> String.string.

Lemma commandsFrom_length prev rest :
  List.length (commandsFrom toFixed0 prev rest) = (2 * List.length rest)%nat.
Proof.
  revert prev. induction rest as [|s rest IH]; intros prev; simpl;
    [reflexivity|].
  rewrite IH. lia.
Qed.

Lemma commandsFrom_nth rest : forall prev i s1 s2,
  nth_error (prev :: rest) i = Some s1 ->
  nth_error rest i = Some s2 ->
  nth_error (commandsFrom toFixed0 prev rest) (2 * i) =
    Some (turnLine toFixed0 s1 s2) /\
  nth_error (commandsFrom toFixed0 prev rest) (2 * i + 1) =
    Some (driveLine toFixed0 s2).
Proof.
  induction rest as [|s rest IH]; intros prev i s1 s2 H1 H2.
  - destruct i; discriminate.
  - destruct i as [|i].
    + simpl in H1, H2. injection H1 as <-. injection H2 as <-.
      split; reflexivity.
    + replace (2 * S i)%nat with (S (S (2 * i))) by lia.
      replace (S (S (2 * i)) + 1)%nat with (S (S (2 * i + 1))) by lia.
      cbn [commandsFrom nth_error].
      apply IH; assumption.
Qed.

End ConsoleFacts.

(** X17.  [printCommands] logs one [DriveDist] line per segment, in path
    order, with one [TurnAngle] line between each two consecutive
    segments: [2n - 1] lines for [n >= 1] segments and none for a path of
    fewer than two waypoints; line [2i] is the drive of segment [i] and
    line [2i + 1] the turn from segment [i] to segment [i + 1]. *)
Theorem printCommands_lines (toFixed0 : R -> String.string)
        (wps : list Waypoint.t) :
  List.length (printCommands toFixed0 wps) =
    (2 * List.length (getSegments wps) - 1)%nat /\
  (forall i s,
      nth_error (getSegments wps) i = Some s ->
      nth_error (printCommands toFixed0 wps) (2 * i) =
        Some (driveLine toFixed0 s)) /\
  (forall i s1 s2,
      nth_error (getSegments wps) i = Some s1 ->
      nth_error (getSegments wps) (S i) = Some s2 ->
      nth_error (printCommands toFixed0 wps) (2 * i + 1) =
        Some (turnLine toFixed0 s1 s2)).
Proof.
  unfold printCommands. destruct (getSegments wps) as [|seg rest].
  - split; [reflexivity|]. split; intros i; destruct i; discriminate.
  - split; [|split].
    + cbn [List.length]. rewrite commandsFrom_length. lia.
    + intros i s Hs. destruct i as [|i].
      * simpl in Hs. now injection Hs as <-.
      * simpl in Hs.
        assert (Hprev : exists s0, nth_error (seg :: rest) i = Some s0).
        { destruct (nth_error (seg :: rest) i) as [s0|] eqn:E; [eauto|].
          apply nth_error_None in E.
          assert (i < List.length rest)%nat
            by (apply nth_error_Some; congruence).
          simpl in E. lia. }
        destruct Hprev as [s0 Hs0].
        destruct (commandsFrom_nth toFixed0 rest seg i s0 s Hs0 Hs) as [_ H].
        replace (2 * S i)%nat with (S (2 * i + 1)) by lia. exact H.
    + intros i s1 s2 H1 H2. simpl in H2.
      destruct (commandsFrom_nth toFixed0 rest seg i s1 s2 H1 H2) as [H _].
      replace (2 * i + 1)%nat with (S (2 * i)) by lia. exact H.
Qed.

(** ** Screen and field coordinates *)

Lemma scale_nonzero width : width <> 0 -> scale width <> 0.
Proof.
  intros Hw. unfold scale, fieldWidth, Rdiv.
  apply Rmult_integral_contrapositive_currified; [exact Hw|].
  apply Rinv_neq_0_compat. lra.
Qed.

(** X18.  For a canvas of non-zero width, [screenToField] and
    [fieldToScreen] are inverse to each other, and [touchMove] appends the
    waypoint whose screen position is the pointer position. *)
Theorem screen_field_round_trip (width x y : R) (g : Globals) :
  width <> 0 ->
  fieldToScreen width (fst (screenToField width x y))
                      (snd (screenToField width x y)) = (x, y) /\
  screenToField width (fst (fieldToScreen width x y))
                      (snd (fieldToScreen width x y)) = (x, y) /\
  exists w,
    waypoints (touchMove width x y g) = waypoints g ++ [w] /\
    fieldToScreen width (Waypoint.x w) (Waypoint.y w) = (x, y).
Proof.
  intros Hw. pose proof (scale_nonzero width Hw) as Hs.
  assert (H1 : fieldToScreen width (x / scale width) (y / scale width)
               = (x, y)).
  { unfold fieldToScreen. f_equal; field; exact Hs. }
  split; [exact H1|]. split.
  - unfold screenToField, fieldToScreen. cbn [fst snd]. f_equal; field; exact Hs.
  - exists (Waypoint.mk (x / scale width) (y / scale width)).
    split; [reflexivity|exact H1].
Qed.

(** ** The closest point *)

Lemma dist_sq_along A B nx ny len p t :
  nx * nx + ny * ny = 1 -> A * nx + B * ny = p * len ->
  (t * (len * nx) - A) * (t * (len * nx) - A) +
  (t * (len * ny) - B) * (t * (len * ny) - B) =
  len * len * (t * t - 2 * t * p) + A * A + B * B.
Proof.
  intros Hu Hp.
  replace ((t * (len * nx) - A) * (t * (len * nx) - A) +
           (t * (len * ny) - B) * (t * (len * ny) - B))
    with (t * t * len * len * (nx * nx + ny * ny)
          - 2 * t * len * (A * nx + B * ny) + A * A + B * B) by ring.
  rewrite Hu, Hp. ring.
Qed.

(** X19.  On a path without coincident consecutive waypoints, the closest
    point that [updatePP] returns is the point nearest to the robot on the
    segment [curSeg] it is left on: no point of that segment, nor of its
    prolongation beyond its end, is nearer. *)
Theorem closest_point_is_nearest
        (wps : list Waypoint.t) (depth : nat) (rX rY rD : R)
        (cs cs' : nat) (r : PursuitResult) :
  distinctNeighbours wps ->
  updatePP_rec depth (getSegments wps) rX rY rD cs =
    Some (cs', Normal (Tracking r)) ->
  exists sc,
    nth_error (getSegments wps) cs' = Some sc /\
    forall t, 0 <= t ->
      Math.hypot (px0 r - rX) (py0 r - rY) <=
      Math.hypot (Segment.x1 sc + t * Segment.dx sc - rX)
                 (Segment.y1 sc + t * Segment.dy sc - rY).
Proof.
  intros Hd H.
  apply updatePP_rec_last in H. destruct H as (k & _ & Hact).
  pose proof (activation_inv (getSegments wps) rX rY rD k) as A.
  rewrite Hact in A.
  destruct A as (c & i & d & seg & Hclosest & _ & _ & Hnth &
                 Hpx0 & Hpy0 & _).
  apply closestLoop_inv in Hclosest.
  destruct Hclosest as (_ & _ & _ & Hproj & Hcd & Hcx & Hcy).
  destruct (segment_facts _ _ _ Hd Hnth) as (Hlen & Hunit & Hdx & Hdy & _).
  exists (c_seg c). split; [exact Hnth|]. intros t Ht.
  rewrite Hpx0, Hpy0, Hcx, Hcy, Hdx, Hdy.
  set (sc := c_seg c) in *. set (len := Segment.length sc) in *.
  set (nx := Segment.ndx sc) in *. set (ny := Segment.ndy sc) in *.
  set (p := projection sc rX rY) in *. set (f := c_d c) in *.
  assert (Hp : (rX - Segment.x1 sc) * nx + (rY - Segment.y1 sc) * ny
               = p * len).
  { unfold p, projection. fold nx ny len. field. lra. }
  unfold Math.hypot. apply sqrt_le_1_alt.
  replace (Segment.x1 sc + f * (len * nx) - rX)
    with (f * (len * nx) - (rX - Segment.x1 sc)) by ring.
  replace (Segment.y1 sc + f * (len * ny) - rY)
    with (f * (len * ny) - (rY - Segment.y1 sc)) by ring.
  replace (Segment.x1 sc + t * (len * nx) - rX)
    with (t * (len * nx) - (rX - Segment.x1 sc)) by ring.
  replace (Segment.y1 sc + t * (len * ny) - rY)
    with (t * (len * ny) - (rY - Segment.y1 sc)) by ring.
  rewrite !(dist_sq_along _ _ nx ny len p) by assumption.
  assert (Hll : 0 < len * len) by nra.
  assert (Hgoal : f * f - 2 * f * p <= t * t - 2 * t * p).
  { rewrite Hcd. unfold Rmax. destruct (Rle_dec 0 p) as [Hp0|Hp0].
    - pose proof (Rle_0_sqr (t - p)) as Hsq. unfold Rsqr in Hsq. lra.
    - assert (0 <= t * t) by nra. assert (0 <= t * - p) by nra. lra. }
  assert (Hmul : len * len * (f * f - 2 * f * p)
                 <= len * len * (t * t - 2 * t * p)).
  { apply Rmult_le_compat_l; [lra|exact Hgoal]. }
  lra.
Qed.

(** ** Instances on the example paths *)

Lemma straightPath_distinct : distinctNeighbours straightPath.
Proof. split; [|exact I]. intros E. injection E. lra. Qed.

Lemma straightPath_first :
  nth_error (getSegments straightPath) 0 = Some straightSegment.
Proof. now rewrite getSegments_straightPath. Qed.

Lemma behindTheStart_runState : runState behindTheStart.
Proof.
  exists [straightSegment], 0%nat, (-100), 0, 0, 0.
  cbn. repeat split. lia.
Qed.

Lemma pastTheEnd_runState : runState pastTheEnd.
Proof.
  exists [straightSegment], 0%nat, 250, 0, 0, 0.
  cbn. repeat split. lia.
Qed.

Lemma jointAngle_between_segments_witness :
  - PI <= jointAngle (segmentOf (Waypoint.mk 0 0) (Waypoint.mk 100 0))
                     (segmentOf (Waypoint.mk 100 0) (Waypoint.mk 0 0)) <= PI.
Proof.
  exact (proj1 (jointAngle_between_segments foldedPath 0 _ _
                  eq_refl eq_refl)).
Defined.

Lemma getSegments_connected_witness :
  Segment.x1 (segmentOf (Waypoint.mk 0 0) (Waypoint.mk 200 0)) = 0 /\
  Segment.y1 (segmentOf (Waypoint.mk 0 0) (Waypoint.mk 200 0)) = 0.
Proof.
  exact (proj1 (proj2 (getSegments_connected straightPath))
               _ (Waypoint.mk 0 0) eq_refl eq_refl).
Defined.

Lemma getSegments_unit_directions_witness :
  0 < Segment.length (segmentOf (Waypoint.mk 0 0) (Waypoint.mk 200 0)).
Proof.
  exact (proj1 (getSegments_unit_directions straightPath 0 _
                  straightPath_distinct eq_refl)).
Defined.

Lemma addWaypoint_extends_path_witness :
  getSegments (waypoints (addWaypoint 1 2 (initial []))) = [].
Proof.
  exact (proj1 (proj2 (addWaypoint_extends_path 1 2 (initial []))) eq_refl).
Defined.

Lemma run_never_throws_witness :
  exists g', ppFrame 1000 behindTheStart = (g', Normal tt) /\ runState g'.
Proof.
  destruct (proj1 (run_never_throws behindTheStart behindTheStart_runState)
                  1000) as (g' & Hf & Hrun & _).
  exists g'. split; assumption.
Defined.

Lemma updatePP_done_exactly_at_end_witness :
  exists g' st, updatePP pastTheEnd = (g', Normal st).
Proof.
  destruct (updatePP_done_exactly_at_end pastTheEnd pastTheEnd_runState)
    as (g' & st & segs & cs' & Hup & _).
  exists g', st. exact Hup.
Defined.

Lemma startPP_throws_iff_witness :
  exists g', startPP 0 16 (initial straightPath) = (g', Normal tt).
Proof.
  destruct (proj2 (startPP_throws_iff 0 16 (initial straightPath)))
    as (g' & w0 & s0 & Hs & _).
  - simpl. lia.
  - exists g'. exact Hs.
Defined.

Lemma getSegments_heading_witness :
  cos (Segment.angle straightSegment) = Segment.ndx straightSegment.
Proof.
  exact (proj1 (proj2 (getSegments_heading straightPath 0 straightSegment
                         straightPath_distinct straightPath_first))).
Defined.

Lemma straightSegment_room : 0 + PURSUIT_DIST < Segment.length straightSegment.
Proof. unfold PURSUIT_DIST. simpl. lra. Qed.

Lemma straightSegment_start : onSegment straightSegment 0 0 0 0.
Proof. unfold onSegment. simpl. repeat split; ring. Qed.

Lemma tracking_along_segment_witness :
  exists r,
    updatePP_rec 1 (getSegments straightPath) 0 0 0 0 =
      Some (0%nat, Normal (Tracking r)) /\
    radiusInv r = 0 /\ badRadius r = false.
Proof.
  destruct (tracking_along_segment straightPath 0 straightSegment 0 0 0 0 1
              straightPath_distinct straightPath_first
              (Rle_refl 0) straightSegment_room straightSegment_start
              (le_n 1))
    as (r & Hrun & Hri & Hbad & _).
  exists r. auto.
Defined.

Lemma frame_along_segment_witness :
  exists g',
    ppFrame 1000 atTheStart = (g', Normal tt) /\
    robotDir g' = Some 0 /\ curSeg g' = Some 0%nat.
Proof.
  destruct (frame_along_segment straightPath atTheStart 0 straightSegment
              0 0 0 0 0 1000
              straightPath_distinct eq_refl eq_refl straightPath_first
              eq_refl eq_refl eq_refl eq_refl
              (Rle_refl 0) straightSegment_room straightSegment_start)
    as (g' & rX' & rY' & Hf & _ & _ & Hd & _ & Hc & _).
  exists g'. auto.
Defined.

Lemma printCommands_lines_witness :
  nth_error (printCommands (fun _ => String.EmptyString) straightPath) 0 =
    Some (driveLine (fun _ => String.EmptyString)
                    (segmentOf (Waypoint.mk 0 0) (Waypoint.mk 200 0))).
Proof.
  exact (proj1 (proj2 (printCommands_lines (fun _ => String.EmptyString)
                         straightPath))
               0%nat _ eq_refl).
Defined.

Lemma fieldWidth_nonzero : fieldWidth <> 0.
Proof. unfold fieldWidth. lra. Qed.

Lemma screen_field_round_trip_witness :
  fieldToScreen fieldWidth (fst (screenToField fieldWidth 326 162))
                           (snd (screenToField fieldWidth 326 162))
    = (326, 162).
Proof.
  exact (proj1 (screen_field_round_trip fieldWidth 326 162 (initial [])
                  fieldWidth_nonzero)).
Defined.

Lemma closest_point_is_nearest_witness :
  exists r sc,
    updatePP_rec 1 (getSegments straightPath) (-100) 0 0 0 =
      Some (0%nat, Normal (Tracking r)) /\
    nth_error (getSegments straightPath) 0 = Some sc.
Proof.
  destruct (straight_run 0) as (r & Hrun & _).
  destruct (closest_point_is_nearest straightPath 1 (-100) 0 0 0 0 r
              straightPath_distinct Hrun) as (sc & Hsc & _).
  exists r, sc. auto.
Defined.

(** ** The last segment of a path *)













(** * The pursuit point away from the robot *)

(** ** The pursuit point and the robot *)

(** The steering data of an activation: the pursuit point is the one the
    pursuit search found from the closest point, and it is at least
    [SKIP_DIST] away or on the segment the closest-point loop stopped
    on. *)
Lemma activation_Tracking_target segs rX rY rD k cs' r :
  activation segs rX rY rD k = Return cs' (Normal (Tracking r)) ->
  exists c i d seg,
    closestLoop (skipn k segs) rX rY k = (cs', Some c) /\
    pursuitSearch segs cs' c = (i, d, seg) /\
    px0 r = c_px0 c /\ py0 r = c_py0 c /\
    px r = Segment.x1 seg + d * Segment.ndx seg /\
    py r = Segment.y1 seg + d * Segment.ndy seg /\
    (SKIP_DIST <= Math.hypot (px r - rX) (py r - rY) \/ i = cs').
Proof.
  unfold activation.
  destruct (closestLoop (skipn k segs) rX rY k) as [c1 [c|]] eqn:Hloop.
  - destruct (pursuitSearch segs c1 c) as [[i d] seg] eqn:Hsearch.
    set (pxv := Segment.x1 seg + d * Segment.ndx seg).
    set (pyv := Segment.y1 seg + d * Segment.ndy seg).
    destruct (ltb (Math.hypot (pxv - rX) (pyv - rY)) SKIP_DIST) eqn:Hd;
      cbn [andb].
    + destruct (Nat.eqb_spec c1 i) as [E|E]; cbn [negb]; [|discriminate].
      destruct (clampRadius _ _) as [ri bad].
      intros H. injection H as <- <-. exists c, i, d, seg.
      cbn [px py px0 py0]. repeat split; try assumption. now right.
    + destruct (clampRadius _ _) as [ri bad].
      intros H. injection H as <- <-. exists c, i, d, seg.
      cbn [px py px0 py0]. repeat split; try assumption. left.
      fold pxv pyv. unfold ltb in Hd.
      destruct (Rlt_dec (Math.hypot (pxv - rX) (pyv - rY)) SKIP_DIST);
        [discriminate|lra].
  - destruct (Nat.eqb c1 (List.length segs)); discriminate.
Qed.

(** A pursuit point on the segment of the closest point lies on that
    segment, strictly after its start. *)
Lemma pursuitSearch_same_segment segs cs c d seg :
  nth_error segs cs = Some (c_seg c) ->
  0 <= c_d c -> 0 < Segment.length (c_seg c) ->
  pursuitSearch segs cs c = (cs, d, seg) ->
  seg = c_seg c /\
  0 < d <= Segment.length seg /\
  (d = PURSUIT_DIST + c_d c * Segment.length seg \/ d = Segment.length seg).
Proof.
  intros Hnth Hf Hlen Hs.
  destruct (pursuitSearch_inv _ _ _ _ _ _ Hnth Hs) as (_ & Hseg & Hcases).
  assert (E : seg = c_seg c) by congruence. subst seg.
  split; [reflexivity|].
  rewrite Nat.sub_diag in Hcases. cbn [firstn arcLength fold_right] in Hcases.
  unfold PURSUIT_DIST in *.
  destruct Hcases as [(Hd & Hgt & _)|(_ & Hd & _)].
  - split; [nra|]. left. lra.
  - split; [lra|]. now right.
Qed.

(** On a path without coincident consecutive waypoints the pursuit point
    that [updatePP] returns is never the position of the robot. *)
Lemma activation_target_apart wps rX rY rD k cs' r :
  distinctNeighbours wps ->
  activation (getSegments wps) rX rY rD k = Return cs' (Normal (Tracking r)) ->
  0 < Math.hypot (px r - rX) (py r - rY).
Proof.
  intros Hd Hact.
  destruct (activation_Tracking_target _ _ _ _ _ _ _ Hact)
    as (c & i & d & seg & Hloop & Hs & _ & _ & Hpx & Hpy & Hfar).
  destruct Hfar as [Hfar| ->]; [unfold SKIP_DIST in Hfar; lra|].
  pose proof (closestLoop_inv _ _ _ _ _ _ Hloop)
    as (Hle & _ & Hnth & Hproj & Hcd & _).
  rewrite nth_error_skipn in Hnth.
  replace (k + (cs' - k))%nat with cs' in Hnth by lia.
  destruct (segment_facts _ _ _ Hd Hnth) as (Hlen & Hunit & _).
  assert (Hf : 0 <= c_d c) by (rewrite Hcd; apply Rmax_l).
  destruct (pursuitSearch_same_segment _ _ _ _ _ Hnth Hf Hlen Hs)
    as (-> & Hdr & Hdv).
  destruct (Rle_lt_or_eq_dec _ _ (hypot_nonneg (px r - rX) (py r - rY)))
    as [Hlt|Heq]; [exact Hlt|].
  exfalso. symmetry in Heq. apply hypot_zero_iff in Heq.
  destruct Heq as [Hx Hy].
  set (s := c_seg c) in *. set (len := Segment.length s) in *.
  assert (Hp : projection s rX rY = d / len).
  { unfold projection. fold len.
    replace rX with (Segment.x1 s + d * Segment.ndx s) by lra.
    replace rY with (Segment.y1 s + d * Segment.ndy s) by lra.
    replace ((Segment.x1 s + d * Segment.ndx s - Segment.x1 s) *
               Segment.ndx s +
             (Segment.y1 s + d * Segment.ndy s - Segment.y1 s) *
               Segment.ndy s)
      with (d * (Segment.ndx s * Segment.ndx s +
                 Segment.ndy s * Segment.ndy s)) by ring.
    now rewrite Hunit, Rmult_1_r. }
  assert (Hdl : d / len * len = d) by (field; lra).
  rewrite Hp in Hproj, Hcd.
  assert (Hpos : 0 < d / len).
  { apply Rmult_lt_0_compat; [lra|]. apply Rinv_0_lt_compat. lra. }
  rewrite Rmax_right in Hcd by lra.
  unfold PURSUIT_DIST in Hdv.
  destruct Hdv as [Hdv|Hdv].
  - rewrite Hcd, Hdl in Hdv. lra.
  - assert (d / len * len < 1 * len) by nra. lra.
Qed.

Lemma tracking_target_apart wps depth rX rY rD cs cs' r :
  distinctNeighbours wps ->
  updatePP_rec depth (getSegments wps) rX rY rD cs =
    Some (cs', Normal (Tracking r)) ->
  0 < Math.hypot (px r - rX) (py r - rY).
Proof.
  intros Hd H. apply updatePP_rec_last in H. destruct H as (k & _ & Hact).
  exact (activation_target_apart _ _ _ _ _ _ _ Hd Hact).
Qed.

(** ** The curvature of pure pursuit *)

(** C1.  On every tick that returns steering data, on a path without
    coincident consecutive waypoints: the pursuit point [(px, py)] is the
    one the pursuit search found from the closest point; its distance [L]
    to the robot is positive; the curvature computed before the clamp is
    [2*sin(alpha)/L], with [bearing] the direction of the pursuit point
    seen from the robot and [alpha = bearing - robotDir]; the expression
    [cos(PI/2 - (bearing - robotDir)) / (L/2)] of the code is that value,
    sign included; and what the tick returns is the clamp of line 126
    applied to it. *)
Theorem curvature_is_pure_pursuit
        (wps : list Waypoint.t) (depth : nat) (rX rY rD : R)
        (cs cs' : nat) (r : PursuitResult) :
  distinctNeighbours wps ->
  updatePP_rec depth (getSegments wps) rX rY rD cs =
    Some (cs', Normal (Tracking r)) ->
  let L := Math.hypot (px r - rX) (py r - rY) in
  let bearing := Math.atan2 (py r - rY) (px r - rX) in
  let alpha := bearing - rD in
  (exists k c i d seg,
      (cs <= k)%nat /\
      closestLoop (skipn k (getSegments wps)) rX rY k = (cs', Some c) /\
      pursuitSearch (getSegments wps) cs' c = (i, d, seg) /\
      px r = Segment.x1 seg + d * Segment.ndx seg /\
      py r = Segment.y1 seg + d * Segment.ndy seg) /\
  0 < L /\
  rawRadiusInv L (px r - rX) (py r - rY) rD = 2 * sin alpha / L /\
  cos (PI / 2 - (bearing - rD)) / (L / 2) = 2 * sin alpha / L /\
  (radiusInv r, badRadius r) =
    clampRadius (PI / 2 - alpha) (2 * sin alpha / L).
Proof.
  intros Hd H L bearing alpha.
  pose proof (tracking_target_apart _ _ _ _ _ _ _ _ Hd H) as HL.
  pose proof (curvature_is_raw _ _ _ _ _ _ _ _ H) as Hclamp.
  assert (F : cos (PI / 2 - (bearing - rD)) / (L / 2) = 2 * sin alpha / L).
  { rewrite cos_shift. fold alpha. field. fold L in HL. lra. }
  split.
  - apply updatePP_rec_last in H. destruct H as (k & Hk & Hact).
    destruct (activation_Tracking_target _ _ _ _ _ _ _ Hact)
      as (c & i & d & seg & Hloop & Hs & _ & _ & Hpx & Hpy & _).
    exists k, c, i, d, seg. auto.
  - split; [exact HL|]. split; [exact F|]. split; [exact F|exact Hclamp].
Qed.

Lemma curvature_is_pure_pursuit_witness :
  exists r,
    updatePP_rec 1 (getSegments straightPath) (-100) 0 (PI / 4) 0 =
      Some (0%nat, Normal (Tracking r)) /\
    Math.hypot (px r - -100) (py r - 0) = 170 /\
    Math.atan2 (py r - 0) (px r - -100) - PI / 4 = - (PI / 4) /\
    rawRadiusInv (Math.hypot (px r - -100) (py r - 0))
                 (px r - -100) (py r - 0) (PI / 4) =
      2 * - (1 / sqrt 2) / 170.
Proof.
  destruct (straight_run (PI / 4))
    as (r & Hrun & _ & _ & _ & _ & HL & HB & _).
  exists r. split; [exact Hrun|]. split; [exact HL|].
  split; [rewrite HB; ring|].
  destruct (curvature_is_pure_pursuit straightPath 1 (-100) 0 (PI / 4) 0 0 r
              straightPath_distinct Hrun) as (_ & _ & Hraw & _).
  rewrite Hraw, HB, HL.
  replace (0 - PI / 4) with (- (PI / 4)) by ring.
  now rewrite sin_neg, sin_PI4.
Defined.



(** ** Bounds on what the controller returns and on the motion *)

(** X1.  On a path without coincident consecutive waypoints, whatever the
    pose, the pursuit point that [updatePP] returns is away from the robot
    and the curvature it returns is at most [1/MIN_TURN_RADIUS] in
    magnitude: the robot is never asked to turn on a radius below
    [MIN_TURN_RADIUS]. *)
Theorem returned_curvature_bounded
        (wps : list Waypoint.t) (depth : nat) (rX rY rD : R)
        (cs cs' : nat) (r : PursuitResult) :
  distinctNeighbours wps ->
  updatePP_rec depth (getSegments wps) rX rY rD cs =
    Some (cs', Normal (Tracking r)) ->
  0 < Math.hypot (px r - rX) (py r - rY) /\
  Rabs (radiusInv r) <= 1 / MIN_TURN_RADIUS.
Proof.
  intros Hd H. split.
  - exact (tracking_target_apart _ _ _ _ _ _ _ _ Hd H).
  - exact (tracking_radius_bounded _ _ _ _ _ _ _ _ H).
Qed.

Lemma returned_curvature_bounded_witness :
  exists r,
    updatePP_rec 1 (getSegments straightPath) (-100) 0 (PI / 4) 0 =
      Some (0%nat, Normal (Tracking r)) /\
    Rabs (radiusInv r) <= 1 / MIN_TURN_RADIUS.
Proof.
  destruct (straight_run (PI / 4)) as (r & Hrun & _).
  exists r. split; [exact Hrun|].
  exact (proj2 (returned_curvature_bounded straightPath _ _ _ _ _ _ _
                  straightPath_distinct Hrun)).
Defined.

(** X2.  On a path without coincident consecutive waypoints, when
    [updatePP] returns steering data the pursuit point is at least
    [SKIP_DIST] away from the robot, unless it lies on the segment
    [curSeg] that the controller is left on, after its start and not
    beyond its end: a nearer point on a later segment makes the controller
    skip ahead instead. *)
Theorem pursuit_point_far_or_on_current_segment
        (wps : list Waypoint.t) (depth : nat) (rX rY rD : R)
        (cs cs' : nat) (r : PursuitResult) :
  distinctNeighbours wps ->
  updatePP_rec depth (getSegments wps) rX rY rD cs =
    Some (cs', Normal (Tracking r)) ->
  SKIP_DIST <= Math.hypot (px r - rX) (py r - rY) \/
  exists seg d,
    nth_error (getSegments wps) cs' = Some seg /\
    0 < d <= Segment.length seg /\
    px r = Segment.x1 seg + d * Segment.ndx seg /\
    py r = Segment.y1 seg + d * Segment.ndy seg.
Proof.
  intros Hd H. apply updatePP_rec_last in H. destruct H as (k & _ & Hact).
  destruct (activation_Tracking_target _ _ _ _ _ _ _ Hact)
    as (c & i & d & seg & Hloop & Hs & _ & _ & Hpx & Hpy & Hfar).
  destruct Hfar as [Hfar| ->]; [now left|]. right.
  pose proof (closestLoop_inv _ _ _ _ _ _ Hloop)
    as (Hle & _ & Hnth & _ & Hcd & _).
  rewrite nth_error_skipn in Hnth.
  replace (k + (cs' - k))%nat with cs' in Hnth by lia.
  destruct (segment_facts _ _ _ Hd Hnth) as (Hlen & _).
  assert (Hf : 0 <= c_d c) by (rewrite Hcd; apply Rmax_l).
  destruct (pursuitSearch_same_segment _ _ _ _ _ Hnth Hf Hlen Hs)
    as (-> & Hdr & _).
  exists (c_seg c), d. auto.
Qed.

Lemma foldedPath_distinct : distinctNeighbours foldedPath.
Proof.
  split; [intros E; injection E; lra|].
  split; [intros E; injection E; lra|exact I].
Qed.

Lemma pursuit_point_far_or_on_current_segment_witness :
  exists r,
    updatePP_rec 2 (getSegments foldedPath) 50 0 0 0 =
      Some (1%nat, Normal (Tracking r)) /\
    (SKIP_DIST <= Math.hypot (px r - 50) (py r - 0) \/
     exists seg d,
       nth_error (getSegments foldedPath) 1 = Some seg /\
       0 < d <= Segment.length seg /\
       px r = Segment.x1 seg + d * Segment.ndx seg /\
       py r = Segment.y1 seg + d * Segment.ndy seg).
Proof.
  destruct (folded_run 0) as [r Hr]. rewrite <- getSegments_foldedPath in Hr.
  exists r. split; [exact Hr|].
  exact (pursuit_point_far_or_on_current_segment foldedPath _ _ _ _ _ _ _
           foldedPath_distinct Hr).
Defined.

(** X3.  During a run on a path without coincident consecutive waypoints, a
    frame in which [updatePP] returns steering data turns the robot by
    [ROBOT_SPEED * dt * radiusInv], with [radiusInv] at most
    [1/MIN_TURN_RADIUS] in magnitude, and then moves it along the new
    heading: the position changes by exactly [ROBOT_SPEED * |dt|], with
    [dt] the time since the last frame in seconds; the frame records its
    clock reading and leaves [ppRunning] alone. *)
Theorem ppFrame_tracking_motion
        (wps : list Waypoint.t) (t last x y d : R) (g g1 : Globals)
        (r : PursuitResult) :
  distinctNeighbours wps -> segments g = Some (getSegments wps) ->
  lastFrame g = Some last ->
  robotX g = Some x -> robotY g = Some y -> robotDir g = Some d ->
  updatePP (set_lastFrame t g) = (g1, Normal (Tracking r)) ->
  let dt := (t - last) / 1000 in
  let d' := d + ROBOT_SPEED * dt * radiusInv r in
  let x' := x + ROBOT_SPEED * dt * cos d' in
  let y' := y + ROBOT_SPEED * dt * sin d' in
  exists g',
    ppFrame t g = (g', Normal tt) /\
    0 < Math.hypot (px r - x) (py r - y) /\
    Rabs (radiusInv r) <= 1 / MIN_TURN_RADIUS /\
    robotDir g' = Some d' /\ robotX g' = Some x' /\ robotY g' = Some y' /\
    Math.hypot (x' - x) (y' - y) = ROBOT_SPEED * Rabs dt /\
    lastFrame g' = Some t /\ curSeg g' = curSeg g1 /\
    ppRunning g' = ppRunning g.
Proof.
  intros Hdist Hsg Hl Hx Hy Hd Hup dt d' x' y'.
  destruct (ppFrame_tracking_step t last x y d g g1 r Hl Hx Hy Hd Hup)
    as (Hf & Md & Mx & My & Mh & Ml & Hb).
  destruct (updatePP_Tracking_inv _ _ _ Hup)
    as (segs & cs & rX & rY & rD & cs' & Hs' & _ & Hx' & Hy' & _ & Hrec & ->).
  cbn in Hs', Hx', Hy'. rewrite Hsg in Hs'. injection Hs' as <-.
  rewrite Hx in Hx'. injection Hx' as <-.
  rewrite Hy in Hy'. injection Hy' as <-.
  exists (moveRobot dt (radiusInv r) (set_curSeg cs' (set_lastFrame t g))).
  split; [exact Hf|].
  split; [exact (tracking_target_apart _ _ _ _ _ _ _ _ Hdist Hrec)|].
  split; [exact Hb|]. split; [exact Md|]. split; [exact Mx|].
  split; [exact My|]. split; [exact Mh|]. split; [exact Ml|].
  split; [apply moveRobot_curSeg|].
  unfold moveRobot. cbn [robotX robotY robotDir set_curSeg set_lastFrame].
  rewrite Hx, Hy, Hd. reflexivity.
Qed.

(** X4.  During a run on a path without coincident consecutive waypoints,
    in every frame, whatever [updatePP] answers, the heading of the robot
    changes by at most [ROBOT_SPEED * |dt| / MIN_TURN_RADIUS] and its
    position by at most [ROBOT_SPEED * |dt|]; the pose stays assigned and
    the clock reading is recorded. *)
Theorem ppFrame_motion_bounded
        (wps : list Waypoint.t) (t last x y d : R) (g g' : Globals)
        (c : Completion unit) :
  distinctNeighbours wps -> segments g = Some (getSegments wps) ->
  lastFrame g = Some last ->
  robotX g = Some x -> robotY g = Some y -> robotDir g = Some d ->
  ppFrame t g = (g', c) ->
  let dt := (t - last) / 1000 in
  exists x' y' d',
    robotX g' = Some x' /\ robotY g' = Some y' /\ robotDir g' = Some d' /\
    Rabs (d' - d) <= ROBOT_SPEED * Rabs dt / MIN_TURN_RADIUS /\
    Math.hypot (x' - x) (y' - y) <= ROBOT_SPEED * Rabs dt /\
    lastFrame g' = Some t /\ segments g' = Some (getSegments wps).
Proof.
  intros Hdist Hsg Hl Hx Hy Hd Hf dt.
  assert (Hv : 0 <= ROBOT_SPEED * Rabs dt).
  { pose proof (Rabs_pos dt). unfold ROBOT_SPEED. nra. }
  assert (Hstill : Rabs (d - d) <= ROBOT_SPEED * Rabs dt / MIN_TURN_RADIUS /\
                   Math.hypot (x - x) (y - y) <= ROBOT_SPEED * Rabs dt).
  { replace (d - d) with 0 by ring. replace (x - x) with 0 by ring.
    replace (y - y) with 0 by ring. rewrite Rabs_R0, hypot_horizontal by lra.
    split; [|exact Hv]. unfold MIN_TURN_RADIUS. lra. }
  destruct (updatePP (set_lastFrame t g)) as [g1 [[|r]|]] eqn:Hup.
  - unfold ppFrame in Hf. rewrite Hl, Hup in Hf. injection Hf as <- <-.
    destruct (updatePP_preserves _ _ _ Hup) as (_ & Hs1 & Hx1 & Hy1 & Hd1 & Hl1).
    exists x, y, d. cbn in *. repeat split; try congruence; tauto.
  - destruct (ppFrame_tracking_step t last x y d g g1 r Hl Hx Hy Hd Hup)
      as (Hf' & Md & Mx & My & Mh & Ml & Hr).
    rewrite Hf' in Hf. injection Hf as <- <-.
    destruct (updatePP_preserves _ _ _ Hup) as (_ & Hs1 & Hx1 & Hy1 & Hd1 & _).
    cbn in Hs1, Hx1, Hy1, Hd1.
    eexists _, _, _. split; [exact Mx|]. split; [exact My|].
    split; [exact Md|]. fold dt. fold dt in Mh.
    split; [|split; [lra|split; [exact Ml|]]].
    + replace (d + ROBOT_SPEED * dt * radiusInv r - d)
        with (ROBOT_SPEED * dt * radiusInv r) by ring.
      rewrite !Rabs_mult, (Rabs_pos_eq ROBOT_SPEED)
        by (unfold ROBOT_SPEED; lra).
      unfold Rdiv at 1. apply Rmult_le_compat_l; [exact Hv|].
      unfold Rdiv in Hr. now rewrite Rmult_1_l in Hr.
    + rewrite Hx, Hy, Hd in *.
      destruct (moveRobot_fields dt (radiusInv r) g1 x y d Hx1 Hy1 Hd1)
        as (_ & _ & _ & _ & _ & Ms & _). rewrite Ms. congruence.
  - unfold ppFrame in Hf. rewrite Hl, Hup in Hf. injection Hf as <- <-.
    destruct (updatePP_preserves _ _ _ Hup) as (_ & Hs1 & Hx1 & Hy1 & Hd1 & Hl1).
    exists x, y, d. cbn in *. repeat split; try congruence; tauto.
Qed.

Lemma behindTheStart_segments :
  segments behindTheStart = Some (getSegments straightPath).
Proof. now rewrite getSegments_straightPath. Qed.

Lemma ppFrame_tracking_motion_witness :
  exists g' r,
    ppFrame 1000 behindTheStart = (g', Normal tt) /\
    robotDir g' = Some (0 + ROBOT_SPEED * ((1000 - 0) / 1000) * radiusInv r) /\
    lastFrame g' = Some 1000.
Proof.
  destruct (behindTheStart_tracking 1000) as [r Hr].
  destruct (ppFrame_tracking_motion straightPath 1000 0 (-100) 0 0
              behindTheStart _ r
              straightPath_distinct behindTheStart_segments
              eq_refl eq_refl eq_refl eq_refl Hr)
    as (g' & Hf & _ & _ & Hd & _ & _ & _ & Hl & _).
  exists g', r. auto.
Defined.

Lemma ppFrame_motion_bounded_witness :
  exists d',
    robotDir (fst (ppFrame 1000 behindTheStart)) = Some d' /\
    Rabs (d' - 0) <=
      ROBOT_SPEED * Rabs ((1000 - 0) / 1000) / MIN_TURN_RADIUS.
Proof.
  destruct (ppFrame_motion_bounded straightPath 1000 0 (-100) 0 0
              behindTheStart
              (fst (ppFrame 1000 behindTheStart))
              (snd (ppFrame 1000 behindTheStart))
              straightPath_distinct behindTheStart_segments
              eq_refl eq_refl eq_refl eq_refl
              (surjective_pairing _))
    as (x' & y' & d' & _ & _ & Hd & Hb & _).
  exists d'. auto.
Defined.
